(** * Set operations on sorted numeric streams

    A shallow embedding of [operations.go] (package [sorted_numeric_streams]):
    the pull interface [SortedNumbersStream], its two adapters [SliceStream]
    and [ChannelStream], the merge-join loop [iterate], the three stages
    [Union], [Intersect], [Diff] and the helper [ToSlice].

    Conventions of the embedding.
    - The element type [T] is Go's [int]; the code only compares elements, so
      it is modelled by [Z] and its zero value by [0].
    - Streams are mutable objects in Go.  Here every operation takes the state
      of the stream and gives back the new one (explicit state passing), so
      that what is left in an input after an operation can be observed.
    - A call that does not return (a receive on a channel that nobody feeds,
      a panic, or a loop that outlives its fuel) is [None].
    - A channel is modelled by its hand-off history: the values the producer
      has pushed and the consumer has not pulled yet, and whether the producer
      has closed it.  Each stage has exactly one producer and one consumer, so
      what the consumer reads does not depend on scheduling; the producer
      goroutine of a stage is therefore run to completion before its output
      is read. *)

From Stdlib Require Import ZArith List Bool Arith Lia.
Import ListNotations.

Open Scope Z_scope.

(** ** The option monad of calls that may not return *)

Notation "x <- c1 ;; c2" :=
  (match c1 with Some x => c2 | None => None end)
  (at level 61, c1 at next level, right associativity).

Notation "' pat <- c1 ;; c2" :=
  (match c1 with Some pat => c2 | None => None end)
  (at level 61, pat pattern, c1 at next level, right associativity).

(** ** Data model *)

(** [T constraints.Ordered], instantiated at [int]. *)
Definition T : Type := Z.

(** [var empty T // zero initialized] *)
Definition zero : T := 0.

(** [type SortedNumbersStream[T] interface { Next() (item T, ok bool) }] *)
Class SortedNumbersStream (S : Type) : Type :=
  Next : S -> option (T * bool * S).

(** [type SliceStream[T] struct { slice []T; pos int }] *)
Record SliceStream : Type := mkSliceStream {
  slice : list T;
  pos : nat
}.

Definition NewSliceStream (slice : list T) : SliceStream :=
  {| slice := slice; pos := 0 |}.

(** [func (s *SliceStream[T]) Reset()] *)
Definition Reset (s : SliceStream) : SliceStream :=
  {| slice := slice s; pos := 0 |}.

(** [func (s *SliceStream[T]) Next() (item T, ok bool)] *)
Definition SliceStream_Next (s : SliceStream) : option (T * bool * SliceStream) :=
  if (pos s <? length (slice s))%nat then
    let item := nth (pos s) (slice s) zero in
    Some (item, true, {| slice := slice s; pos := S (pos s) |})
  else
    Some (zero, false, s).

#[export] Instance SliceStream_stream : SortedNumbersStream SliceStream :=
  SliceStream_Next.

(** [type ChannelStream[T] struct { pipe chan T }]: the values handed to the
    channel and not received yet, and whether the channel is closed. *)
Record ChannelStream : Type := mkChannelStream {
  pipe : list T;
  closed : bool
}.

Definition NewChannelStream : ChannelStream :=
  {| pipe := []; closed := false |}.

(** [func (s *ChannelStream[T]) Next()]: [item, ok = <-s.pipe].  A receive
    takes the oldest value; on a closed and empty channel it returns the zero
    value and [false]; on an open and empty channel it blocks. *)
Definition ChannelStream_Next (s : ChannelStream) : option (T * bool * ChannelStream) :=
  match pipe s with
  | item :: rest => Some (item, true, {| pipe := rest; closed := closed s |})
  | [] => if closed s then Some (zero, false, s) else None
  end.

#[export] Instance ChannelStream_stream : SortedNumbersStream ChannelStream :=
  ChannelStream_Next.

(** [func (s *ChannelStream[T]) Push(item T) { s.pipe <- item }]: a send on a
    closed channel panics. *)
Definition Push (item : T) (s : ChannelStream) : option ChannelStream :=
  if closed s then None
  else Some {| pipe := pipe s ++ [item]; closed := false |}.

(** [func (s *ChannelStream[T]) Close() { close(s.pipe) }]: closing a closed
    channel panics. *)
Definition Close (s : ChannelStream) : option ChannelStream :=
  if closed s then None
  else Some {| pipe := pipe s; closed := true |}.

(** ** The merge-join loop *)

Section Iterate.
Context {S1 S2 R : Type}.
Context {stream1_next : SortedNumbersStream S1}.
Context {stream2_next : SortedNumbersStream S2}.

(** [type operation[T] func(a, b *T)]: a pointer is [None] when nil.  The
    callbacks of this package act on the result channel they close over;
    [R] is the state they act on. *)
Definition operation : Type := option T -> option T -> R -> option R.

(** [type shouldStop func(aClosed, bClosed bool) bool] *)
Definition shouldStop : Type := bool -> bool -> bool.

Variable op : operation.
Variable stop : shouldStop.
Variable asc : bool.

(** The local variables of [iterate] together with the objects it acts on. *)
Record frame : Type := mkFrame {
  i1 : T;
  i2 : T;
  empty1 : bool;
  empty2 : bool;
  stream1 : S1;
  stream2 : S2;
  res : R
}.

(** What [iterate] leaves behind when it returns. *)
Definition final : Type := (S1 * S2 * R)%type.

(** Lines 152-161, the loop entered when [stream1] is exhausted:
    "no more in stream1 -> return all from stream2".  [empty2] is read on
    every round and never written. *)
Fixpoint drain_right (fuel : nat) (i2 : T) (empty2 : bool) (stream2 : S2) (r : R)
  : option (S2 * R) :=
  match fuel with
  | O => None
  | S fuel' =>
      r <- (if negb empty2 then op None (Some i2) r else Some r) ;;
      '(i2, readOk, stream2) <- Next stream2 ;;
      if negb readOk then Some (stream2, r)
      else
        r <- op None (Some i2) r ;;
        drain_right fuel' i2 empty2 stream2 r
  end.

(** Lines 172-182, the loop entered when [stream2] is exhausted:
    "no more from stream2 -> return all from stream1". *)
Fixpoint drain_left (fuel : nat) (i1 : T) (empty1 : bool) (stream1 : S1) (r : R)
  : option (S1 * R) :=
  match fuel with
  | O => None
  | S fuel' =>
      '(r, empty1) <- (if negb empty1
                       then r <- op (Some i1) None r ;; Some (r, true)
                       else Some (r, empty1)) ;;
      '(i1, readOk, stream1) <- Next stream1 ;;
      if negb readOk then Some (stream1, r)
      else
        r <- op (Some i1) None r ;;
        drain_left fuel' i1 empty1 stream1 r
  end.

(** Lines 146-164: [if empty1 { ... }].  [inr] is a [return]. *)
Definition read_left (fuel : nat) (v : frame) : option (frame + final) :=
  if empty1 v then
    '(i1', readOk, stream1') <- Next (stream1 v) ;;
    if negb readOk then
      if stop true false then Some (inr (stream1', stream2 v, res v))
      else
        '(stream2', r) <- drain_right fuel (i2 v) (empty2 v) (stream2 v) (res v) ;;
        Some (inr (stream1', stream2', r))
    else
      Some (inl {| i1 := i1'; i2 := i2 v; empty1 := false; empty2 := empty2 v;
                   stream1 := stream1'; stream2 := stream2 v; res := res v |})
  else Some (inl v).

(** Lines 166-185: [if empty2 { ... }]. *)
Definition read_right (fuel : nat) (v : frame) : option (frame + final) :=
  if empty2 v then
    '(i2', readOk, stream2') <- Next (stream2 v) ;;
    if negb readOk then
      if stop false true then Some (inr (stream1 v, stream2', res v))
      else
        '(stream1', r) <- drain_left fuel (i1 v) (empty1 v) (stream1 v) (res v) ;;
        Some (inr (stream1', stream2', r))
    else
      Some (inl {| i1 := i1 v; i2 := i2'; empty1 := empty1 v; empty2 := false;
                   stream1 := stream1 v; stream2 := stream2'; res := res v |})
  else Some (inl v).

(** Lines 187-203: "Both streams have values". *)
Definition compare_heads (v : frame) : option frame :=
  let both r := {| i1 := i1 v; i2 := i2 v; empty1 := true; empty2 := true;
                   stream1 := stream1 v; stream2 := stream2 v; res := r |} in
  let left r := {| i1 := i1 v; i2 := i2 v; empty1 := true; empty2 := empty2 v;
                   stream1 := stream1 v; stream2 := stream2 v; res := r |} in
  let right r := {| i1 := i1 v; i2 := i2 v; empty1 := empty1 v; empty2 := true;
                    stream1 := stream1 v; stream2 := stream2 v; res := r |} in
  if i1 v =? i2 v then
    r <- op (Some (i1 v)) (Some (i2 v)) (res v) ;; Some (both r)
  else if asc && (i1 v <? i2 v) then
    r <- op (Some (i1 v)) None (res v) ;; Some (left r)
  else if asc && (i1 v >? i2 v) then
    r <- op None (Some (i2 v)) (res v) ;; Some (right r)
  else if negb asc && (i1 v <? i2 v) then
    r <- op None (Some (i2 v)) (res v) ;; Some (right r)
  else if negb asc && (i1 v >? i2 v) then
    r <- op (Some (i1 v)) None (res v) ;; Some (left r)
  else Some v.

(** Lines 145-204: the outer [for { ... }]. *)
Fixpoint iterate_loop (fuel : nat) (v : frame) : option final :=
  match fuel with
  | O => None
  | S fuel' =>
      match read_left fuel' v with
      | None => None
      | Some (inr out) => Some out
      | Some (inl v) =>
          match read_right fuel' v with
          | None => None
          | Some (inr out) => Some out
          | Some (inl v) =>
              v <- compare_heads v ;;
              iterate_loop fuel' v
          end
      end
  end.

(** [func iterate(stream1, stream2, op, stop, asc)] *)
Definition iterate (fuel : nat) (s1 : S1) (s2 : S2) (r : R) : option final :=
  iterate_loop fuel
    {| i1 := zero; i2 := zero; empty1 := true; empty2 := true;
       stream1 := s1; stream2 := s2; res := r |}.

End Iterate.

Arguments frame : clear implicits.
Arguments final : clear implicits.
Arguments operation : clear implicits.

(** ** The three stages

    In the source each of [Union], [Intersect] and [Diff] declares its
    callback under the local name [unionOperation] and its stop policy under
    the local name [shouldStopDecision]; here they are told apart by the name
    of the stage. *)

(** The callback of [Union] (lines 73-89): every presence shape pushes one
    value. *)
Definition unionOperation : operation ChannelStream :=
  fun a b result =>
    match a, b with
    | Some a, Some _ => Push a result
    | Some a, None => Push a result
    | None, Some b => Push b result
    | None, None => Some result
    end.

(** The callback of [Intersect] (lines 103-108): only "both present"
    pushes. *)
Definition intersectOperation : operation ChannelStream :=
  fun a b result =>
    match a, b with
    | Some a, Some _ => Push a result
    | _, _ => Some result
    end.

(** The callback of [Diff] (lines 122-126): only "left present, right
    absent" pushes. *)
Definition diffOperation : operation ChannelStream :=
  fun a b result =>
    match a, b with
    | Some a, None => Push a result
    | _, _ => Some result
    end.

(** The stop policies (lines 90, 109 and 127). *)
Definition unionStop : shouldStop := fun aClosed bClosed => false.
Definition intersectStop : shouldStop := fun aClosed bClosed => aClosed || bClosed.
Definition diffStop : shouldStop := fun aClosed bClosed => aClosed.

Section Stages.
Context {S1 S2 : Type}.
Context {stream1_next : SortedNumbersStream S1}.
Context {stream2_next : SortedNumbersStream S2}.

(** The body the three stages share: [result := NewChannelStream()], then the
    goroutine [iterate(stream1, stream2, op, stop, asc); result.Close()].
    The result channel comes back with the inputs as the stage left them. *)
Definition stage (op : operation ChannelStream) (stop : shouldStop)
    (fuel : nat) (s1 : S1) (s2 : S2) (asc : bool)
  : option (ChannelStream * S1 * S2) :=
  '(s1, s2, result) <- iterate op stop asc fuel s1 s2 NewChannelStream ;;
  result <- Close result ;;
  Some (result, s1, s2).

(** [func Union(stream1, stream2, asc)] *)
Definition Union := stage unionOperation unionStop.

(** [func Intersect(stream1, stream2, asc)] *)
Definition Intersect := stage intersectOperation intersectStop.

(** [func Diff(stream1, stream2, asc)] *)
Definition Diff := stage diffOperation diffStop.
End Stages.

(** ** Materialisation *)

Section ToSlice.
Context {St : Type} {stream_next : SortedNumbersStream St}.

(** The loop of [ToSlice]; [ret] is the slice built so far. *)
Fixpoint ToSlice_loop (fuel : nat) (stream : St) (ret : list T) : option (list T * St) :=
  match fuel with
  | O => None
  | S fuel' =>
      '(i, ok, stream) <- Next stream ;;
      if negb ok then Some (ret, stream)
      else ToSlice_loop fuel' stream (ret ++ [i])
  end.

(** [func ToSlice(stream) []T] *)
Definition ToSlice (fuel : nat) (stream : St) : option (list T * St) :=
  ToSlice_loop fuel stream [].
End ToSlice.

(** ** Test harness

    [TestEarlyFinish]: run an operation on two slices, materialise its result,
    then materialise what is left in each input. *)

Inductive opname : Type := OpUnion | OpIntersect | OpDiff.

Definition run_stage (o : opname) (fuel : nat) (a b : SliceStream) (asc : bool)
  : option (ChannelStream * SliceStream * SliceStream) :=
  match o with
  | OpUnion => Union fuel a b asc
  | OpIntersect => Intersect fuel a b asc
  | OpDiff => Diff fuel a b asc
  end.

(** Result, remaining items of [a], remaining items of [b]. *)
Definition run_test (o : opname) (fuel : nat) (A B : list T) (asc : bool)
  : option (list T * list T * list T) :=
  '(c, a, b) <- run_stage o fuel (NewSliceStream A) (NewSliceStream B) asc ;;
  '(result, _) <- ToSlice fuel c ;;
  '(restA, _) <- ToSlice fuel a ;;
  '(restB, _) <- ToSlice fuel b ;;
  Some (result, restA, restB).

(** Only the materialised result, as in [TestUnion], [TestIntersection] and
    [TestDiff]. *)
Definition run (o : opname) (fuel : nat) (A B : list T) (asc : bool) : option (list T) :=
  '(c, _, _) <- run_stage o fuel (NewSliceStream A) (NewSliceStream B) asc ;;
  '(result, _) <- ToSlice fuel c ;;
  Some result.

(** [TestComposition]: [Diff(Intersect(a, b, true), c, true)]. *)
Definition run_composition (fuel : nat) (A B C : list T) : option (list T) :=
  '(ab, _, _) <- Intersect fuel (NewSliceStream A) (NewSliceStream B) true ;;
  '(abc, _, _) <- Diff fuel ab (NewSliceStream C) true ;;
  '(result, _) <- ToSlice fuel abc ;;
  Some result.

(** ** Observation and specification vocabulary *)

(** A callback that writes down the pointer pair of every call it gets. *)
Definition record : operation (list (option T * option T)) :=
  fun a b calls => Some (calls ++ [(a, b)]).

(** The both-nil shape of a pointer pair. *)
Definition both_nil (c : option T * option T) : bool :=
  match c with
  | (None, None) => true
  | _ => false
  end.

(** [x] is delivered before [y] in the declared direction. *)
Definition before (asc : bool) (x y : T) : bool :=
  if asc then x <? y else y <? x.

(** A sequence runs in the declared direction with no repeated value. *)
Fixpoint ordered (asc : bool) (l : list T) : bool :=
  match l with
  | [] => true
  | x :: l' =>
      match l' with
      | [] => true
      | y :: _ => before asc x y && ordered asc l'
      end
  end.

Definition mem (x : T) (l : list T) : bool := existsb (Z.eqb x) l.

(** The operations applied eagerly on materialised sequences, in the words of
    the specification: the elements of [A] that are in [B], and the elements
    of [A] that are not in [B]. *)
Definition eager_intersect (A B : list T) : list T :=
  filter (fun x => mem x B) A.

Definition eager_diff (A B : list T) : list T :=
  filter (fun x => negb (mem x B)) A.

(** What a callback pushes, by presence shape. *)
Definition emitter : Type := option T -> option T -> list T.

Definition intersect_emit : emitter :=
  fun a b => match a, b with Some a, Some _ => [a] | _, _ => [] end.

Definition diff_emit : emitter :=
  fun a b => match a, b with Some a, None => [a] | _, _ => [] end.

(** The two-pointer merge of two sequences, as a list function: the emissions
    of a policy that stops when the left side runs out. *)
Fixpoint merge_emit (f : emitter) (asc : bool) (A : list T) : list T -> list T :=
  fix merge_right (B : list T) : list T :=
    match A, B with
    | [], _ => []
    | _, [] => flat_map (fun x => f (Some x) None) A
    | x :: A', y :: B' =>
        if x =? y then f (Some x) (Some y) ++ merge_emit f asc A' B'
        else if before asc x y then f (Some x) None ++ merge_emit f asc A' B
        else f None (Some y) ++ merge_right B'
    end.

Section Streams.
Context {St : Type} {stream_next : SortedNumbersStream St}.

(** The stream hands out exactly the values of [l], in order, and then
    reports exhaustion. *)
Fixpoint delivers (s : St) (l : list T) : Prop :=
  match l with
  | [] => exists z s', Next s = Some (z, false, s')
  | x :: l' => exists s', Next s = Some (x, true, s') /\ delivers s' l'
  end.

(** The [ok] flags of [n] successive calls of [Next]. *)
Fixpoint Next_oks (n : nat) (s : St) : option (list bool) :=
  match n with
  | O => Some []
  | S n' =>
      '(_, ok, s) <- Next s ;;
      oks <- Next_oks n' s ;;
      Some (ok :: oks)
  end.
End Streams.

(** The callback pushes [f a b] on an open channel and leaves it open. *)
Definition emits (f : emitter) (op : operation ChannelStream) : Prop :=
  forall a b r, closed r = false ->
    exists r', op a b r = Some r' /\ pipe r' = pipe r ++ f a b /\ closed r' = false.

(** What a side still has to offer: its buffered head, if any, and the values
    its stream has yet to deliver. *)
Definition pending (empty : bool) (i : T) (tail : list T) : list T :=
  if empty then tail else i :: tail.

(** The right-only presence shape. *)
Definition right_only (x : T) : option T * option T := (None, Some x).

(** ** Vocabulary for the whole loop, any stop policy *)

(** What the callback of [Union] pushes, by presence shape. *)
Definition union_emit : emitter :=
  fun a b =>
    match a, b with
    | Some a, _ => [a]
    | None, Some b => [b]
    | None, None => []
    end.

(** What [record] writes down for one call. *)
Definition call_emit (a b : option T) : list (option T * option T) := [(a, b)].

(** The callback appends [f a b] to what can be seen of its state, as long as
    the state is usable. *)
Definition appends {R E : Type} (view : R -> list E) (usable : R -> Prop)
    (f : option T -> option T -> list E) (op : operation R) : Prop :=
  forall a b r, usable r ->
    exists r', op a b r = Some r' /\ view r' = view r ++ f a b /\ usable r'.

(** The emissions of the whole loop on two sequences, as a list function, for
    any stop policy.  [buffered] tells whether the first value of [B] is a
    head already pulled from the right stream.  When the left side runs out
    and the policy goes on, the right side is drained as lines 152-161 do it:
    with a head buffered, every value after it is emitted twice. *)
Fixpoint merge_general {E : Type} (f : option T -> option T -> list E)
    (stop : shouldStop) (asc : bool) (A : list T) : bool -> list T -> list E :=
  match A with
  | [] =>
      fun buffered B =>
        if stop true false then []
        else if buffered then
          match B with
          | [] => []
          | y :: B' =>
              f None (Some y)
              ++ flat_map (fun z => f None (Some z) ++ f None (Some z)) B'
          end
        else flat_map (fun z => f None (Some z)) B
  | x :: A' =>
      fix merge_right (buffered : bool) (B : list T) {struct B} : list E :=
        match B with
        | [] =>
            if stop false true then []
            else flat_map (fun z => f (Some z) None) (x :: A')
        | y :: B' =>
            if x =? y then
              f (Some x) (Some y) ++ merge_general f stop asc A' false B'
            else if before asc x y then
              f (Some x) None ++ merge_general f stop asc A' true (y :: B')
            else f None (Some y) ++ merge_right false B'
        end
  end.

(** A call as the source comment describes it: "when both are present - means
    they are equal", otherwise exactly one side is present. *)
Definition well_formed_call (c : option T * option T) : Prop :=
  match c with
  | (Some a, Some b) => a = b
  | (Some _, None) => True
  | (None, Some _) => True
  | (None, None) => False
  end.

(** The state a stream is in right after a call of [Next] that reported
    exhaustion. *)
Definition just_exhausted {St : Type} {stream_next : SortedNumbersStream St}
    (s' : St) : Prop :=
  exists s z, Next s = Some (z, false, s').

(** [TestChannelStream]: the producer pushes the values of [l] one by one. *)
Fixpoint push_all (l : list T) (s : ChannelStream) : option ChannelStream :=
  match l with
  | [] => Some s
  | x :: l' => s <- Push x s ;; push_all l' s
  end.

(** The producer of [TestChannelStream] on a new channel: push every value,
    then close. *)
Definition produce (l : list T) : option ChannelStream :=
  s <- push_all l NewChannelStream ;; Close s.


(** What [Union] hands over on two sequences, as a list function. *)
Definition union_list (asc : bool) (buffered : bool) (A B : list T) : list T :=
  merge_general union_emit unionStop asc A buffered B.

(** ** The adapters as streams *)

Lemma skipn_cons_nth (l : list T) (p : nat) :
  (p < length l)%nat -> skipn p l = nth p l zero :: skipn (S p) l.
Proof.
  revert p. induction l as [|x l IH]; intros p Hp; simpl in Hp.
  - lia.
  - destruct p as [|p]; [reflexivity|].
    change (skipn p l = nth p l zero :: skipn (S p) l).
    apply IH. lia.
Qed.

Lemma delivers_slice_from (l : list T) (rest : list T) :
  forall p, rest = skipn p l -> delivers {| slice := l; pos := p |} rest.
Proof.
  induction rest as [|x rest IH]; intros p Hrest.
  - assert (Hp : (length l <= p)%nat).
    { destruct (le_lt_dec (length l) p) as [Hle|Hlt]; [exact Hle|].
      rewrite (skipn_cons_nth l p Hlt) in Hrest. discriminate. }
    simpl. exists zero, {| slice := l; pos := p |}.
    unfold Next, SliceStream_stream, SliceStream_Next. simpl.
    destruct (Nat.ltb_spec p (length l)); [lia|reflexivity].
  - assert (Hp : (p < length l)%nat).
    { destruct (le_lt_dec (length l) p) as [Hle|Hlt]; [|exact Hlt].
      rewrite skipn_all2 in Hrest by exact Hle. discriminate. }
    rewrite (skipn_cons_nth l p Hp) in Hrest. injection Hrest as Hx Hr.
    simpl. exists {| slice := l; pos := S p |}. split.
    + unfold Next, SliceStream_stream, SliceStream_Next. simpl.
      destruct (Nat.ltb_spec p (length l)); [|lia]. now rewrite Hx.
    + apply IH. exact Hr.
Qed.

Lemma delivers_NewSliceStream (A : list T) : delivers (NewSliceStream A) A.
Proof. apply delivers_slice_from. reflexivity. Qed.

Lemma delivers_closed_channel (l : list T) :
  delivers {| pipe := l; closed := true |} l.
Proof.
  induction l as [|x l IH]; simpl.
  - exists zero, {| pipe := []; closed := true |}. reflexivity.
  - exists {| pipe := l; closed := true |}. split; [reflexivity|exact IH].
Qed.

Section ToSliceFacts.
Context {St : Type} {stream_next : SortedNumbersStream St}.

Lemma ToSlice_loop_delivers (l : list T) :
  forall (fuel : nat) (s : St) (ret : list T),
    delivers s l -> (length l < fuel)%nat ->
    exists s', ToSlice_loop fuel s ret = Some (ret ++ l, s').
Proof.
  induction l as [|x l IH]; intros fuel s ret Hd Hf;
    (destruct fuel as [|fuel]; [simpl in Hf; lia|]); simpl in *.
  - destruct Hd as (z & s' & Hn). rewrite Hn. simpl.
    exists s'. now rewrite app_nil_r.
  - destruct Hd as (s' & Hn & Hd). rewrite Hn. simpl.
    destruct (IH fuel s' (ret ++ [x]) Hd ltac:(lia)) as (s'' & Hs).
    exists s''. rewrite Hs. now rewrite <- app_assoc.
Qed.

Lemma ToSlice_delivers (l : list T) (fuel : nat) (s : St) :
  delivers s l -> (length l < fuel)%nat ->
  exists s', ToSlice fuel s = Some (l, s').
Proof.
  intros Hd Hf. unfold ToSlice.
  destruct (ToSlice_loop_delivers l fuel s [] Hd Hf) as (s' & Hs).
  exists s'. exact Hs.
Qed.
End ToSliceFacts.

(** ** The loop refines the list merge *)

Lemma Push_open (x : T) (r : ChannelStream) :
  closed r = false ->
  exists r', Push x r = Some r' /\ pipe r' = pipe r ++ [x] /\ closed r' = false.
Proof.
  intros Hr. unfold Push. rewrite Hr. eexists. repeat split.
Qed.

Lemma keep_open (r : ChannelStream) :
  closed r = false ->
  exists r', Some r = Some r' /\ pipe r' = pipe r ++ [] /\ closed r' = false.
Proof.
  intros Hr. exists r. now rewrite app_nil_r.
Qed.

Lemma intersectOperation_emits : emits intersect_emit intersectOperation.
Proof.
  intros [a|] [b|] r Hr; simpl; auto using Push_open, keep_open.
Qed.

Lemma diffOperation_emits : emits diff_emit diffOperation.
Proof.
  intros [a|] [b|] r Hr; simpl; auto using Push_open, keep_open.
Qed.

Lemma flat_map_nil (g : T -> list T) (l : list T) :
  (forall x, g x = []) -> flat_map g l = [].
Proof.
  intros Hg. induction l as [|x l IH]; simpl; [reflexivity|].
  now rewrite Hg, IH.
Qed.

Section Refinement.
Context {S1 S2 : Type}.
Context {stream1_next : SortedNumbersStream S1}.
Context {stream2_next : SortedNumbersStream S2}.

Variable f : emitter.
Variable op : operation ChannelStream.
Variable stop : shouldStop.
Variable asc : bool.

Hypothesis op_emits : emits f op.
Hypothesis stop_left : stop true false = true.
Hypothesis stop_right : stop false true = true -> forall x, f (Some x) None = [].

Lemma drain_left_emits (tail : list T) :
  forall fuel i1 empty1 (s1 : S1) r,
    delivers s1 tail -> closed r = false -> (length tail < fuel)%nat ->
    exists s1' r',
      drain_left op fuel i1 empty1 s1 r = Some (s1', r') /\
      pipe r' = pipe r ++ flat_map (fun x => f (Some x) None) (pending empty1 i1 tail) /\
      closed r' = false.
Proof.
  induction tail as [|x tail IH]; intros fuel i1 empty1 s1 r Hd Hr Hf;
    (destruct fuel as [|fuel]; [simpl in Hf; lia|]); simpl in Hd, Hf.
  - destruct Hd as (z & s1' & Hn).
    destruct empty1; simpl.
    + rewrite Hn. simpl. exists s1', r. now rewrite app_nil_r.
    + destruct (op_emits (Some i1) None r Hr) as (r1 & Hop & Hp & Hc).
      rewrite Hop, Hn. simpl. exists s1', r1. now rewrite app_nil_r.
  - destruct Hd as (s1' & Hn & Hd).
    destruct empty1; simpl.
    + rewrite Hn. simpl.
      destruct (op_emits (Some x) None r Hr) as (r1 & Hop & Hp & Hc).
      rewrite Hop.
      destruct (IH fuel x true s1' r1 Hd Hc ltac:(lia)) as (s1'' & r2 & Hl & Hp2 & Hc2).
      exists s1'', r2. rewrite Hl, Hp2, Hp. simpl.
      now rewrite <- app_assoc.
    + destruct (op_emits (Some i1) None r Hr) as (r0 & Hop0 & Hp0 & Hc0).
      rewrite Hop0, Hn. simpl.
      destruct (op_emits (Some x) None r0 Hc0) as (r1 & Hop & Hp & Hc).
      rewrite Hop.
      destruct (IH fuel x true s1' r1 Hd Hc ltac:(lia)) as (s1'' & r2 & Hl & Hp2 & Hc2).
      exists s1'', r2. rewrite Hl, Hp2, Hp, Hp0. simpl.
      now rewrite <- !app_assoc.
Qed.

(** One comparison of the two heads: which side is reported and cleared. *)
Lemma compare_heads_emits (v : frame S1 S2 ChannelStream) :
  closed (res v) = false ->
  exists v',
    compare_heads op asc v = Some v' /\
    closed (res v') = false /\
    stream1 v' = stream1 v /\ stream2 v' = stream2 v /\
    i1 v' = i1 v /\ i2 v' = i2 v /\
    if i1 v =? i2 v then
      pipe (res v') = pipe (res v) ++ f (Some (i1 v)) (Some (i2 v)) /\
      empty1 v' = true /\ empty2 v' = true
    else if before asc (i1 v) (i2 v) then
      pipe (res v') = pipe (res v) ++ f (Some (i1 v)) None /\
      empty1 v' = true /\ empty2 v' = empty2 v
    else
      pipe (res v') = pipe (res v) ++ f None (Some (i2 v)) /\
      empty1 v' = empty1 v /\ empty2 v' = true.
Proof.
  intros Hr. unfold compare_heads, before.
  destruct (Z.eqb_spec (i1 v) (i2 v)) as [He|Hne].
  - destruct (op_emits (Some (i1 v)) (Some (i2 v)) (res v) Hr) as (r & Hop & Hp & Hc).
    rewrite Hop. eexists. repeat split; simpl; auto.
  - destruct (op_emits (Some (i1 v)) None (res v) Hr) as (rl & Hopl & Hpl & Hcl).
    destruct (op_emits None (Some (i2 v)) (res v) Hr) as (rr & Hopr & Hpr & Hcr).
    rewrite Z.gtb_ltb.
    destruct asc; simpl;
      destruct (Z.ltb_spec (i1 v) (i2 v)); destruct (Z.ltb_spec (i2 v) (i1 v));
      try lia; simpl; rewrite ?Hopl, ?Hopr; eexists; repeat split; simpl; auto.
Qed.

Lemma merge_emit_nil_l (B : list T) : merge_emit f asc [] B = [].
Proof. destruct B; reflexivity. Qed.

Lemma merge_emit_nil_r (A : list T) :
  merge_emit f asc A [] = flat_map (fun x => f (Some x) None) A.
Proof. destruct A; reflexivity. Qed.

Lemma merge_emit_cons (x y : T) (A B : list T) :
  merge_emit f asc (x :: A) (y :: B) =
  if x =? y then f (Some x) (Some y) ++ merge_emit f asc A B
  else if before asc x y then f (Some x) None ++ merge_emit f asc A (y :: B)
  else f None (Some y) ++ merge_emit f asc (x :: A) B.
Proof. reflexivity. Qed.

(** Lines 146-164 either return with nothing pending on the left, or leave a
    head buffered on the left. *)
Lemma read_left_spec fuel (v : frame S1 S2 ChannelStream) tailA :
  delivers (stream1 v) tailA ->
  (pending (empty1 v) (i1 v) tailA = [] /\
   exists s1', read_left op stop fuel v = Some (inr (s1', stream2 v, res v)))
  \/
  (exists v1 tailA1,
      read_left op stop fuel v = Some (inl v1) /\
      empty1 v1 = false /\
      pending (empty1 v) (i1 v) tailA = i1 v1 :: tailA1 /\
      delivers (stream1 v1) tailA1 /\
      i2 v1 = i2 v /\ empty2 v1 = empty2 v /\
      stream2 v1 = stream2 v /\ res v1 = res v).
Proof.
  intros Hd. unfold read_left, pending.
  destruct (empty1 v) eqn:He1.
  - destruct tailA as [|x tailA]; simpl in Hd.
    + destruct Hd as (z & s1' & Hn). left. split; [reflexivity|].
      rewrite Hn. simpl. rewrite stop_left. now exists s1'.
    + destruct Hd as (s1' & Hn & Hd). right.
      rewrite Hn. simpl. eexists _, tailA. repeat split; simpl; auto.
  - right. exists v, tailA. repeat split; auto.
Qed.

(** Lines 166-185, entered with a head buffered on the left. *)
Lemma read_right_spec fuel (v : frame S1 S2 ChannelStream) tailA tailB :
  empty1 v = false ->
  delivers (stream1 v) tailA -> delivers (stream2 v) tailB ->
  closed (res v) = false -> (length tailA < fuel)%nat ->
  (pending (empty2 v) (i2 v) tailB = [] /\
   exists s1' s2' r',
     read_right op stop fuel v = Some (inr (s1', s2', r')) /\
     pipe r' = pipe (res v) ++ flat_map (fun x => f (Some x) None) (i1 v :: tailA) /\
     closed r' = false)
  \/
  (exists v2 tailB2,
      read_right op stop fuel v = Some (inl v2) /\
      empty2 v2 = false /\
      pending (empty2 v) (i2 v) tailB = i2 v2 :: tailB2 /\
      delivers (stream2 v2) tailB2 /\
      i1 v2 = i1 v /\ empty1 v2 = empty1 v /\
      stream1 v2 = stream1 v /\ res v2 = res v).
Proof.
  intros He1 HdA HdB Hr Hf. unfold read_right, pending.
  destruct (empty2 v) eqn:He2.
  - destruct tailB as [|y tailB]; simpl in HdB.
    + destruct HdB as (z & s2' & Hn). left. split; [reflexivity|].
      rewrite Hn. simpl.
      destruct (stop false true) eqn:Hstop.
      * exists (stream1 v), s2', (res v). repeat split; auto.
        pose proof (flat_map_nil (fun x => f (Some x) None) (i1 v :: tailA)
                      (stop_right eq_refl)) as Hnil.
        simpl in Hnil |- *. rewrite Hnil. now rewrite app_nil_r.
      * destruct (drain_left_emits tailA fuel (i1 v) (empty1 v) (stream1 v) (res v)
                    HdA Hr Hf) as (s1' & r' & Hl & Hp & Hc).
        rewrite Hl. exists s1', s2', r'. rewrite He1 in Hp. repeat split; auto.
    + destruct HdB as (s2' & Hn & HdB). right.
      rewrite Hn. simpl. eexists _, tailB. repeat split; simpl; auto.
  - right. exists v, tailB. repeat split; auto.
Qed.

Lemma iterate_loop_merge :
  forall fuel (v : frame S1 S2 ChannelStream) tailA tailB,
    delivers (stream1 v) tailA -> delivers (stream2 v) tailB ->
    closed (res v) = false ->
    (length (pending (empty1 v) (i1 v) tailA)
     + length (pending (empty2 v) (i2 v) tailB) < fuel)%nat ->
    exists s1' s2' r',
      iterate_loop op stop asc fuel v = Some (s1', s2', r') /\
      pipe r' = pipe (res v)
                ++ merge_emit f asc (pending (empty1 v) (i1 v) tailA)
                                    (pending (empty2 v) (i2 v) tailB) /\
      closed r' = false.
Proof.
  induction fuel as [|fuel IH]; intros v tailA tailB HdA HdB Hr Hf; [lia|].
  simpl.
  destruct (read_left_spec fuel v tailA HdA)
    as [(HA & s1' & Hrl) | (v1 & tailA1 & Hrl & He1 & HA & HdA1 & Hi2 & He2 & Hs2 & Hres)];
    rewrite Hrl, HA in *.
  { exists s1', (stream2 v), (res v).
    rewrite merge_emit_nil_l, app_nil_r. auto. }
  rewrite <- Hs2 in HdB. rewrite <- Hres in Hr.
  rewrite <- Hi2, <- He2 in Hf |- *. rewrite <- Hres.
  clear Hrl Hi2 He2 Hs2 Hres HA HdA v.
  simpl in Hf.
  destruct (read_right_spec fuel v1 tailA1 tailB He1 HdA1 HdB Hr ltac:(lia))
    as [(HB & s1' & s2' & r' & Hrr & Hp & Hc)
       | (v2 & tailB2 & Hrr & He2 & HB & HdB2 & Hi1 & He1' & Hs1 & Hres)];
    rewrite Hrr, HB in *.
  { exists s1', s2', r'. rewrite merge_emit_nil_r. auto. }
  rewrite <- Hs1 in HdA1. rewrite <- Hres in Hr.
  rewrite <- Hi1, <- Hres. rewrite <- He1' in He1.
  clear Hrr Hi1 He1' Hs1 Hres HB HdB v1.
  simpl in Hf.
  destruct (compare_heads_emits v2 Hr)
    as (v' & Hcmp & Hc & Hs1 & Hs2 & Hi1 & Hi2 & Hcase).
  rewrite Hcmp, merge_emit_cons.
  rewrite <- Hs1 in HdA1. rewrite <- Hs2 in HdB2.
  destruct (i1 v2 =? i2 v2).
  - destruct Hcase as (Hp & He1' & He2').
    destruct (IH v' tailA1 tailB2 HdA1 HdB2 Hc) as (s1' & s2' & r' & Hl & Hp' & Hc').
    { rewrite He1', He2'. simpl. lia. }
    exists s1', s2', r'. rewrite Hl, Hp', Hp, He1', He2'. simpl.
    now rewrite <- app_assoc.
  - destruct (before asc (i1 v2) (i2 v2)).
    + destruct Hcase as (Hp & He1' & He2').
      destruct (IH v' tailA1 tailB2 HdA1 HdB2 Hc) as (s1' & s2' & r' & Hl & Hp' & Hc').
      { rewrite He1', He2', He2. simpl. lia. }
      exists s1', s2', r'. rewrite Hl, Hp', Hp, He1', He2', He2, Hi2. simpl.
      now rewrite <- app_assoc.
    + destruct Hcase as (Hp & He1' & He2').
      destruct (IH v' tailA1 tailB2 HdA1 HdB2 Hc) as (s1' & s2' & r' & Hl & Hp' & Hc').
      { rewrite He1', He2', He1. simpl. lia. }
      exists s1', s2', r'. rewrite Hl, Hp', Hp, He1', He2', He1, Hi1. simpl.
      now rewrite <- app_assoc.
Qed.

(** [iterate] on two streams that deliver [A] and [B] pushes the list merge
    of [A] and [B] on a new channel and returns. *)
Lemma iterate_merge (A B : list T) (fuel : nat) (s1 : S1) (s2 : S2) :
  delivers s1 A -> delivers s2 B -> (length A + length B < fuel)%nat ->
  exists s1' s2' r',
    iterate op stop asc fuel s1 s2 NewChannelStream = Some (s1', s2', r') /\
    pipe r' = merge_emit f asc A B /\ closed r' = false.
Proof.
  intros HdA HdB Hf. unfold iterate.
  apply (iterate_loop_merge fuel
           {| i1 := zero; i2 := zero; empty1 := true; empty2 := true;
              stream1 := s1; stream2 := s2; res := NewChannelStream |} A B);
    auto.
Qed.

(** The stage built on [iterate] hands over that merge and closes. *)
Lemma stage_merge (A B : list T) (fuel : nat) (s1 : S1) (s2 : S2) :
  delivers s1 A -> delivers s2 B -> (length A + length B < fuel)%nat ->
  exists s1' s2',
    stage op stop fuel s1 s2 asc
    = Some ({| pipe := merge_emit f asc A B; closed := true |}, s1', s2').
Proof.
  intros HdA HdB Hf. unfold stage.
  destruct (iterate_merge A B fuel s1 s2 HdA HdB Hf) as (s1' & s2' & r' & Hi & Hp & Hc).
  rewrite Hi. unfold Close. rewrite Hc, Hp. now exists s1', s2'.
Qed.
End Refinement.

(** ** Ordered sequences and the list merge *)

Lemma before_irrefl (asc : bool) (x : T) : before asc x x = false.
Proof. unfold before. destruct asc; apply Z.ltb_irrefl. Qed.

Lemma before_trans (asc : bool) (x y z : T) :
  before asc x y = true -> before asc y z = true -> before asc x z = true.
Proof.
  unfold before. destruct asc; rewrite !Z.ltb_lt; lia.
Qed.

Lemma before_asym (asc : bool) (x y : T) :
  before asc x y = true -> before asc y x = false.
Proof.
  unfold before. destruct asc; rewrite Z.ltb_lt, Z.ltb_ge; lia.
Qed.

Lemma before_total (asc : bool) (x y : T) :
  x <> y -> before asc x y = false -> before asc y x = true.
Proof.
  unfold before. destruct asc; rewrite Z.ltb_lt, Z.ltb_ge; lia.
Qed.

Lemma ordered_tail (asc : bool) (x : T) (l : list T) :
  ordered asc (x :: l) = true -> ordered asc l = true.
Proof.
  destruct l as [|y l]; [reflexivity|].
  simpl. intros H. apply andb_prop in H. apply H.
Qed.

Lemma ordered_head (asc : bool) (l : list T) :
  forall x, ordered asc (x :: l) = true ->
  forall y, In y l -> before asc x y = true.
Proof.
  induction l as [|z l IH]; intros x Hx y Hy; [destruct Hy|].
  change (before asc x z && ordered asc (z :: l) = true) in Hx.
  apply andb_prop in Hx. destruct Hx as [Hxz Hz].
  destruct Hy as [<-|Hy]; [exact Hxz|].
  eapply before_trans; [exact Hxz|]. now apply IH.
Qed.

Lemma ordered_cons (asc : bool) (x : T) (l : list T) :
  ordered asc l = true -> (forall y, In y l -> before asc x y = true) ->
  ordered asc (x :: l) = true.
Proof.
  intros Hl Hx. destruct l as [|z l]; [reflexivity|].
  change (before asc x z && ordered asc (z :: l) = true).
  rewrite Hl, (Hx z (or_introl eq_refl)). reflexivity.
Qed.

Lemma ordered_filter (asc : bool) (p : T -> bool) (l : list T) :
  ordered asc l = true -> ordered asc (filter p l) = true.
Proof.
  induction l as [|x l IH]; intros Hl; [reflexivity|].
  pose proof (ordered_tail _ _ _ Hl) as Ht.
  simpl. destruct (p x); [|now apply IH].
  apply ordered_cons; [now apply IH|].
  intros y Hy. apply filter_In in Hy.
  eapply ordered_head; [exact Hl|apply Hy].
Qed.

Lemma mem_In (x : T) (l : list T) : mem x l = true <-> In x l.
Proof.
  unfold mem. rewrite existsb_exists. split.
  - intros (y & Hy & He). apply Z.eqb_eq in He. now subst.
  - intros Hx. exists x. split; [exact Hx|apply Z.eqb_refl].
Qed.

Lemma mem_cons_other (a y : T) (B : list T) :
  a <> y -> mem a (y :: B) = mem a B.
Proof.
  intros Hne. unfold mem. simpl.
  destruct (Z.eqb_spec a y); [contradiction|reflexivity].
Qed.

Lemma mem_head (x : T) (B : list T) : mem x (x :: B) = true.
Proof. unfold mem. simpl. now rewrite Z.eqb_refl. Qed.

Lemma filter_cons_if (p : T -> bool) (x : T) (l : list T) :
  filter p (x :: l) = if p x then x :: filter p l else filter p l.
Proof. reflexivity. Qed.

Lemma mem_before_head (asc : bool) (x y : T) (B : list T) :
  ordered asc (y :: B) = true -> before asc x y = true -> mem x (y :: B) = false.
Proof.
  intros HB Hxy.
  destruct (mem x (y :: B)) eqn:Hm; [|reflexivity].
  apply mem_In in Hm. destruct Hm as [->|Hm].
  - now rewrite before_irrefl in Hxy.
  - pose proof (ordered_head _ _ _ HB _ Hm) as Hyx.
    apply before_asym in Hyx. congruence.
Qed.

Section MergeIsFilter.
Variable sel : bool -> bool.
Variable f : emitter.
Variable asc : bool.

Hypothesis f_both : forall x y, f (Some x) (Some y) = if sel true then [x] else [].
Hypothesis f_left : forall x, f (Some x) None = if sel false then [x] else [].
Hypothesis f_right : forall y, f None (Some y) = [].

Lemma flat_map_left_filter (A : list T) :
  flat_map (fun x => f (Some x) None) A = filter (fun _ => sel false) A.
Proof.
  induction A as [|x A IH]; [reflexivity|].
  simpl. rewrite f_left, IH. now destruct (sel false).
Qed.

(** On ordered sequences the merge keeps the elements of [A] chosen by their
    membership in [B]. *)
Lemma merge_emit_filter (A : list T) :
  ordered asc A = true ->
  forall B, ordered asc B = true ->
  merge_emit f asc A B = filter (fun x => sel (mem x B)) A.
Proof.
  induction A as [|x A IHA]; intros HA B; [intros; apply merge_emit_nil_l|].
  pose proof (ordered_tail _ _ _ HA) as HA'.
  induction B as [|y B IHB]; intros HB.
  - rewrite merge_emit_nil_r. exact (flat_map_left_filter (x :: A)).
  - pose proof (ordered_tail _ _ _ HB) as HB'.
    rewrite merge_emit_cons.
    destruct (Z.eqb_spec x y) as [<-|Hne].
    + rewrite f_both, (IHA HA' B HB'), filter_cons_if, mem_head.
      replace (filter (fun a => sel (mem a (x :: B))) A)
        with (filter (fun a => sel (mem a B)) A); [now destruct (sel true)|].
      apply filter_ext_in. intros a Ha.
      rewrite mem_cons_other; [reflexivity|].
      intros ->. pose proof (ordered_head _ _ _ HA _ Ha) as Hxx.
      now rewrite before_irrefl in Hxx.
    + destruct (before asc x y) eqn:Hxy.
      * rewrite f_left, (IHA HA' (y :: B) HB), filter_cons_if.
        rewrite (mem_before_head asc x y B HB Hxy). now destruct (sel false).
      * rewrite f_right, (IHB HB'). cbn [app].
        pose proof (before_total asc x y Hne Hxy) as Hyx.
        apply filter_ext_in. intros a Ha.
        rewrite mem_cons_other; [reflexivity|].
        intros ->. destruct Ha as [->|Ha]; [contradiction|].
        pose proof (ordered_head _ _ _ HA _ Ha) as Hxa.
        apply before_asym in Hxa. congruence.
Qed.
End MergeIsFilter.

Lemma merge_emit_intersect (asc : bool) (A B : list T) :
  ordered asc A = true -> ordered asc B = true ->
  merge_emit intersect_emit asc A B = eager_intersect A B.
Proof.
  intros HA HB.
  now apply (merge_emit_filter (fun b => b) intersect_emit asc).
Qed.

Lemma merge_emit_diff (asc : bool) (A B : list T) :
  ordered asc A = true -> ordered asc B = true ->
  merge_emit diff_emit asc A B = eager_diff A B.
Proof.
  intros HA HB.
  now apply (merge_emit_filter negb diff_emit asc).
Qed.

Lemma eager_intersect_In (A B : list T) (x : T) :
  In x (eager_intersect A B) <-> In x A /\ In x B.
Proof.
  unfold eager_intersect. rewrite filter_In, mem_In. reflexivity.
Qed.

Lemma eager_diff_In (A B : list T) (x : T) :
  In x (eager_diff A B) <-> In x A /\ ~ In x B.
Proof.
  unfold eager_diff. rewrite filter_In, negb_true_iff, <- (mem_In x B).
  destruct (mem x B); intuition congruence.
Qed.

Lemma eager_intersect_length (A B : list T) :
  (length (eager_intersect A B) <= length A)%nat.
Proof. apply filter_length_le. Qed.

Lemma eager_diff_length (A B : list T) :
  (length (eager_diff A B) <= length A)%nat.
Proof. apply filter_length_le. Qed.

Lemma before_negb (asc : bool) (x y : T) : before (negb asc) x y = before asc y x.
Proof. now destruct asc. Qed.

Lemma ordered_snoc (asc : bool) (x : T) (l : list T) :
  ordered asc l = true -> (forall y, In y l -> before asc y x = true) ->
  ordered asc (l ++ [x]) = true.
Proof.
  induction l as [|z l IH]; intros Hl Hx; [reflexivity|].
  change ((z :: l) ++ [x]) with (z :: (l ++ [x])).
  apply ordered_cons.
  - apply IH; [eapply ordered_tail; exact Hl|].
    intros y Hy. apply Hx. now right.
  - intros y Hy. apply in_app_or in Hy. destruct Hy as [Hy|[<-|[]]].
    + eapply ordered_head; [exact Hl|exact Hy].
    + apply Hx. now left.
Qed.

Lemma ordered_rev (asc : bool) (l : list T) :
  ordered asc l = true -> ordered (negb asc) (rev l) = true.
Proof.
  induction l as [|x l IH]; intros Hl; [reflexivity|].
  simpl. apply ordered_snoc.
  - apply IH. eapply ordered_tail; exact Hl.
  - intros y Hy. rewrite before_negb. apply in_rev in Hy.
    eapply ordered_head; [exact Hl|exact Hy].
Qed.

Lemma mem_rev (x : T) (l : list T) : mem x (rev l) = mem x l.
Proof.
  destruct (mem x l) eqn:Hm.
  - apply mem_In. apply -> in_rev. now apply mem_In.
  - destruct (mem x (rev l)) eqn:Hr; [|reflexivity].
    apply mem_In in Hr. apply in_rev in Hr. apply mem_In in Hr. congruence.
Qed.

Lemma filter_rev_list (p : T -> bool) (l : list T) :
  filter p (rev l) = rev (filter p l).
Proof.
  induction l as [|x l IH]; [reflexivity|].
  simpl. rewrite filter_app, IH. simpl.
  destruct (p x); simpl; [reflexivity|apply app_nil_r].
Qed.

Lemma eager_intersect_rev (A B : list T) :
  eager_intersect (rev A) (rev B) = rev (eager_intersect A B).
Proof.
  unfold eager_intersect. rewrite filter_rev_list. f_equal.
  apply filter_ext. intros x. apply mem_rev.
Qed.

Lemma eager_diff_rev (A B : list T) :
  eager_diff (rev A) (rev B) = rev (eager_diff A B).
Proof.
  unfold eager_diff. rewrite filter_rev_list. f_equal.
  apply filter_ext. intros x. now rewrite mem_rev.
Qed.

(** ** The stages on slices *)

Section StagesOnStreams.
Context {S1 S2 : Type}.
Context {stream1_next : SortedNumbersStream S1}.
Context {stream2_next : SortedNumbersStream S2}.

Lemma Intersect_stage (asc : bool) (A B : list T) (fuel : nat) (s1 : S1) (s2 : S2) :
  delivers s1 A -> delivers s2 B ->
  ordered asc A = true -> ordered asc B = true ->
  (length A + length B < fuel)%nat ->
  exists s1' s2',
    Intersect fuel s1 s2 asc
    = Some ({| pipe := eager_intersect A B; closed := true |}, s1', s2').
Proof.
  intros HdA HdB HA HB Hf.
  rewrite <- (merge_emit_intersect asc A B HA HB).
  apply stage_merge; auto using intersectOperation_emits.
Qed.

Lemma Diff_stage (asc : bool) (A B : list T) (fuel : nat) (s1 : S1) (s2 : S2) :
  delivers s1 A -> delivers s2 B ->
  ordered asc A = true -> ordered asc B = true ->
  (length A + length B < fuel)%nat ->
  exists s1' s2',
    Diff fuel s1 s2 asc
    = Some ({| pipe := eager_diff A B; closed := true |}, s1', s2').
Proof.
  intros HdA HdB HA HB Hf.
  rewrite <- (merge_emit_diff asc A B HA HB).
  apply stage_merge; auto using diffOperation_emits.
  discriminate.
Qed.
End StagesOnStreams.

Lemma run_Intersect (asc : bool) (A B : list T) (fuel : nat) :
  ordered asc A = true -> ordered asc B = true ->
  (length A + length B < fuel)%nat ->
  run OpIntersect fuel A B asc = Some (eager_intersect A B).
Proof.
  intros HA HB Hf. unfold run, run_stage.
  destruct (Intersect_stage asc A B fuel (NewSliceStream A) (NewSliceStream B))
    as (a & b & Hs); auto using delivers_NewSliceStream.
  rewrite Hs.
  destruct (ToSlice_delivers (eager_intersect A B) fuel
              {| pipe := eager_intersect A B; closed := true |}) as (c & Hc).
  - apply delivers_closed_channel.
  - pose proof (eager_intersect_length A B). lia.
  - now rewrite Hc.
Qed.

Lemma run_Diff (asc : bool) (A B : list T) (fuel : nat) :
  ordered asc A = true -> ordered asc B = true ->
  (length A + length B < fuel)%nat ->
  run OpDiff fuel A B asc = Some (eager_diff A B).
Proof.
  intros HA HB Hf. unfold run, run_stage.
  destruct (Diff_stage asc A B fuel (NewSliceStream A) (NewSliceStream B))
    as (a & b & Hs); auto using delivers_NewSliceStream.
  rewrite Hs.
  destruct (ToSlice_delivers (eager_diff A B) fuel
              {| pipe := eager_diff A B; closed := true |}) as (c & Hc).
  - apply delivers_closed_channel.
  - pose proof (eager_diff_length A B). lia.
  - now rewrite Hc.
Qed.

(** X5.  For [Intersect] and [Diff], reversing both inputs and the direction flag
    reverses the result. *)
Lemma Intersect_Diff_direction_symmetry (o : opname) (A B : list T) (fuel : nat) :
  o <> OpUnion ->
  ordered true A = true -> ordered true B = true ->
  (length A + length B < fuel)%nat ->
  run o fuel (rev A) (rev B) false = option_map (@rev T) (run o fuel A B true).
Proof.
  intros Ho HA HB Hf.
  pose proof (ordered_rev true A HA) as HA'.
  pose proof (ordered_rev true B HB) as HB'.
  simpl in HA', HB'.
  destruct o; [contradiction| |].
  - rewrite (run_Intersect true A B fuel HA HB Hf).
    rewrite (run_Intersect false (rev A) (rev B) fuel HA' HB').
    + simpl. now rewrite eager_intersect_rev.
    + now rewrite !length_rev.
  - rewrite (run_Diff true A B fuel HA HB Hf).
    rewrite (run_Diff false (rev A) (rev B) fuel HA' HB').
    + simpl. now rewrite eager_diff_rev.
    + now rewrite !length_rev.
Qed.

(** ** What the callback is called with *)

Section CallShapes.
Context {S1 S2 R : Type}.
Context {stream1_next : SortedNumbersStream S1}.
Context {stream2_next : SortedNumbersStream S2}.

Variable op : operation R.
Variable stop : shouldStop.
Variable asc : bool.

(** A property of the callback's state that every call with at least one
    pointer set maintains; nothing is asked of a call with both nil. *)
Variable P : R -> Prop.
Hypothesis op_keeps :
  forall a b r r', both_nil (a, b) = false -> P r -> op a b r = Some r' -> P r'.

Lemma keeps_left x r r' : P r -> op (Some x) None r = Some r' -> P r'.
Proof. now apply op_keeps. Qed.

Lemma keeps_right y r r' : P r -> op None (Some y) r = Some r' -> P r'.
Proof. now apply op_keeps. Qed.

Lemma keeps_both x y r r' : P r -> op (Some x) (Some y) r = Some r' -> P r'.
Proof. now apply op_keeps. Qed.

Ltac step :=
  match goal with
  | H : match ?x with _ => _ end = Some _ |- _ =>
      let E := fresh "E" in destruct x eqn:E; try discriminate H
  | H : Some _ = Some _ |- _ => injection H as ?; subst
  | H : (_, _) = (_, _) |- _ => injection H as ?; subst
  end.

Lemma drain_right_keeps :
  forall fuel i2 empty2 (s2 : S2) r s2' r',
    P r -> drain_right op fuel i2 empty2 s2 r = Some (s2', r') -> P r'.
Proof.
  induction fuel as [|fuel IH]; intros i2 empty2 s2 r s2' r' Hr H;
    [discriminate|].
  simpl in H. repeat step; eauto using keeps_right.
Qed.

Lemma drain_left_keeps :
  forall fuel i1 empty1 (s1 : S1) r s1' r',
    P r -> drain_left op fuel i1 empty1 s1 r = Some (s1', r') -> P r'.
Proof.
  induction fuel as [|fuel IH]; intros i1 empty1 s1 r s1' r' Hr H;
    [discriminate|].
  simpl in H. repeat step; eauto using keeps_left.
Qed.

Lemma read_left_keeps fuel (v : frame S1 S2 R) :
  P (res v) ->
  match read_left op stop fuel v with
  | Some (inl v') => P (res v')
  | Some (inr (_, _, r')) => P r'
  | None => True
  end.
Proof.
  intros Hr. unfold read_left.
  destruct (empty1 v); [|exact Hr].
  destruct (Next (stream1 v)) as [[[x ok] s1']|]; [|exact I].
  destruct ok; simpl; [exact Hr|].
  destruct (stop true false); [exact Hr|].
  destruct (drain_right op fuel (i2 v) (empty2 v) (stream2 v) (res v))
    as [[s2' r']|] eqn:E; [|exact I].
  eapply drain_right_keeps; eauto.
Qed.

Lemma read_right_keeps fuel (v : frame S1 S2 R) :
  P (res v) ->
  match read_right op stop fuel v with
  | Some (inl v') => P (res v')
  | Some (inr (_, _, r')) => P r'
  | None => True
  end.
Proof.
  intros Hr. unfold read_right.
  destruct (empty2 v); [|exact Hr].
  destruct (Next (stream2 v)) as [[[x ok] s2']|]; [|exact I].
  destruct ok; simpl; [exact Hr|].
  destruct (stop false true); [exact Hr|].
  destruct (drain_left op fuel (i1 v) (empty1 v) (stream1 v) (res v))
    as [[s1' r']|] eqn:E; [|exact I].
  eapply drain_left_keeps; eauto.
Qed.

Lemma compare_heads_keeps (v v' : frame S1 S2 R) :
  P (res v) -> compare_heads op asc v = Some v' -> P (res v').
Proof.
  intros Hr H. unfold compare_heads in H.
  repeat step; simpl; eauto using keeps_left, keeps_right, keeps_both.
Qed.

Lemma iterate_loop_keeps :
  forall fuel (v : frame S1 S2 R) s1' s2' r',
    P (res v) -> iterate_loop op stop asc fuel v = Some (s1', s2', r') -> P r'.
Proof.
  induction fuel as [|fuel IH]; intros v s1' s2' r' Hr H; [discriminate|].
  simpl in H.
  pose proof (read_left_keeps fuel v Hr) as Hl.
  destruct (read_left op stop fuel v) as [[v1|[[a b] r1]]|]; try discriminate.
  - pose proof (read_right_keeps fuel v1 Hl) as Hrr.
    destruct (read_right op stop fuel v1) as [[v2|[[a b] r2]]|]; try discriminate.
    + destruct (compare_heads op asc v2) as [v3|] eqn:Hc; [|discriminate].
      eapply IH; [|exact H]. eapply compare_heads_keeps; eauto.
    + injection H as -> -> ->. exact Hrr.
  - injection H as -> -> ->. exact Hl.
Qed.

Lemma iterate_keeps fuel (s1 : S1) (s2 : S2) r s1' s2' r' :
  P r -> iterate op stop asc fuel s1 s2 r = Some (s1', s2', r') -> P r'.
Proof.
  intros Hr H. unfold iterate in H.
  eapply iterate_loop_keeps in H; [exact H|exact Hr].
Qed.
End CallShapes.

(** ** The drain loop for an exhausted left side *)

(** The calls made by lines 152-161 on a right stream that still delivers
    [tail].  With no head buffered every pulled value is reported once; with a
    head buffered, [empty2] stays [false] and every pulled value is reported a
    second time at the top of the next round. *)
Lemma drain_right_trace {S2 : Type} {stream2_next : SortedNumbersStream S2}
    (tail : list T) :
  forall fuel i2 empty2 (s2 : S2) calls,
    delivers s2 tail -> (length tail < fuel)%nat ->
    exists s2',
      drain_right record fuel i2 empty2 s2 calls
      = Some (s2',
              calls ++ (if empty2 then map right_only tail
                        else right_only i2
                               :: flat_map (fun x => [right_only x; right_only x]) tail)).
Proof.
  induction tail as [|x tail IH]; intros fuel i2 empty2 s2 calls Hd Hf;
    (destruct fuel as [|fuel]; [simpl in Hf; lia|]); simpl in Hd, Hf.
  - destruct Hd as (z & s2' & Hn). exists s2'.
    simpl. destruct empty2; simpl; rewrite Hn; simpl;
      [now rewrite app_nil_r|reflexivity].
  - destruct Hd as (s2' & Hn & Hd).
    destruct (IH fuel x empty2 s2'
                (if empty2 then calls ++ [right_only x]
                 else (calls ++ [right_only i2]) ++ [right_only x])
                Hd ltac:(lia)) as (s2'' & Hs).
    exists s2''. simpl.
    unfold right_only in *.
    destruct empty2; simpl; rewrite Hn; simpl; rewrite Hs;
      now rewrite <- !app_assoc.
Qed.

(** * The claims *)

(** ** Merge correctness *)

(** C1.  Materialising [Union(A, B, asc=true)] is claimed to give the
    ascending sequence of the union with every element once.  On the ordered
    inputs [[1]] and [[2;3]] the code gives [[1;2;3;3]]: the left side runs
    out with the head [2] buffered on the right, and the drain loop reports
    the pulled value [3] twice. *)
Theorem Union_repeats_drained_values :
  ordered true [1] = true /\ ordered true [2; 3] = true /\
  run_test OpUnion 8 [1] [2; 3] true = Some ([1; 2; 3; 3], [], []).
Proof. repeat split. Qed.

(** C2.  After the left stream reports exhaustion and the stop policy says
    go on, the callback is claimed to be called right-only exactly once per
    value.  With [stream1 = [1]], [stream2 = [2;3]] and a policy that never
    stops, the recorded calls are left-only 1, right-only 2, right-only 3 and
    right-only 3 again. *)
Theorem drain_right_repeats_pulled_values :
  iterate record unionStop true 8 (NewSliceStream [1]) (NewSliceStream [2; 3]) []
  = Some ({| slice := [1]; pos := 1 |}, {| slice := [2; 3]; pos := 2 |},
          [(Some 1, None); (None, Some 2); (None, Some 3); (None, Some 3)]).
Proof. reflexivity. Qed.

(** C3.  For ascending duplicate-free [A] and [B], materialising
    [Intersect(A, B, asc=true)] returns the elements of [A] that are in [B]:
    an ascending sequence whose members are exactly the members of both; and
    [Intersect([1,2,3],[1,2,3])] yields [[1,2,3]]. *)
Theorem Intersect_ascending_correct (A B : list T) (fuel : nat) :
  ordered true A = true -> ordered true B = true ->
  (length A + length B < fuel)%nat ->
  run OpIntersect fuel A B true = Some (eager_intersect A B) /\
  ordered true (eager_intersect A B) = true /\
  (forall x, In x (eager_intersect A B) <-> In x A /\ In x B) /\
  run OpIntersect 8 [1; 2; 3] [1; 2; 3] true = Some [1; 2; 3].
Proof.
  intros HA HB Hf.
  split; [now apply run_Intersect|].
  split; [now apply ordered_filter|].
  split; [intros x; apply eager_intersect_In|reflexivity].
Qed.

Lemma Intersect_ascending_correct_witness :
  run OpIntersect 7 [0; 1; 2] [1; 2; 3] true = Some (eager_intersect [0; 1; 2] [1; 2; 3]) /\
  ordered true (eager_intersect [0; 1; 2] [1; 2; 3]) = true /\
  (forall x, In x (eager_intersect [0; 1; 2] [1; 2; 3])
             <-> In x [0; 1; 2] /\ In x [1; 2; 3]) /\
  run OpIntersect 8 [1; 2; 3] [1; 2; 3] true = Some [1; 2; 3].
Proof.
  apply (Intersect_ascending_correct [0; 1; 2] [1; 2; 3] 7);
    [reflexivity | reflexivity | simpl; lia].
Defined.

(** C4.  For ascending duplicate-free [A] and [B], materialising
    [Diff(A, B, asc=true)] returns the elements of [A] that are not in [B]:
    an ascending sequence whose members are exactly the members of [A]
    outside [B]; and [Diff([1,2,3],[1])] yields [[2,3]] with nothing left to
    read in either input. *)
Theorem Diff_ascending_correct (A B : list T) (fuel : nat) :
  ordered true A = true -> ordered true B = true ->
  (length A + length B < fuel)%nat ->
  run OpDiff fuel A B true = Some (eager_diff A B) /\
  ordered true (eager_diff A B) = true /\
  (forall x, In x (eager_diff A B) <-> In x A /\ ~ In x B) /\
  run_test OpDiff 8 [1; 2; 3] [1] true = Some ([2; 3], [], []).
Proof.
  intros HA HB Hf.
  split; [now apply run_Diff|].
  split; [now apply ordered_filter|].
  split; [intros x; apply eager_diff_In|reflexivity].
Qed.

Lemma Diff_ascending_correct_witness :
  run OpDiff 7 [0; 1; 2] [1] true = Some (eager_diff [0; 1; 2] [1]) /\
  ordered true (eager_diff [0; 1; 2] [1]) = true /\
  (forall x, In x (eager_diff [0; 1; 2] [1]) <-> In x [0; 1; 2] /\ ~ In x [1]) /\
  run_test OpDiff 8 [1; 2; 3] [1] true = Some ([2; 3], [], []).
Proof.
  apply (Diff_ascending_correct [0; 1; 2] [1] 7);
    [reflexivity | reflexivity | simpl; lia].
Defined.

(** ** Direction symmetry *)

(** C5.  Running an operation on the reversed inputs with the descending flag
    is claimed to give the reverse of the ascending result, for all three
    operations.  For [Union] on [[1]] and [[2;3]] the descending run gives
    [[3;2;1]] while the ascending run gives [[1;2;3;3]], whose reverse is
    [[3;3;2;1]]. *)
Theorem Union_direction_asymmetry :
  run OpUnion 8 (rev [1]) (rev [2; 3]) false = Some [3; 2; 1] /\
  option_map (@rev T) (run OpUnion 8 [1] [2; 3] true) = Some [3; 3; 2; 1].
Proof. split; reflexivity. Qed.

(** ** Composition *)

(** C6.  For ascending duplicate-free [A], [B], [C] the pipeline
    [Diff(Intersect(A, B, true), C, true)] materialises to the eager
    difference of the eager intersection, the ascending sequence of the
    members of [A] and [B] that are not in [C]; and
    [Diff(Intersect([1,2,3],[2,3]),[3])] yields [[2]]. *)
Theorem composition_refines_eager (A B C : list T) (fuel : nat) :
  ordered true A = true -> ordered true B = true -> ordered true C = true ->
  (length A + length B + length C < fuel)%nat ->
  run_composition fuel A B C = Some (eager_diff (eager_intersect A B) C) /\
  ordered true (eager_diff (eager_intersect A B) C) = true /\
  (forall x, In x (eager_diff (eager_intersect A B) C)
             <-> (In x A /\ In x B) /\ ~ In x C) /\
  run_composition 8 [1; 2; 3] [2; 3] [3] = Some [2].
Proof.
  intros HA HB HC Hf.
  pose proof (eager_intersect_length A B) as Hlen.
  pose proof (ordered_filter true (fun x => mem x B) A HA) as HAB.
  fold (eager_intersect A B) in HAB.
  split; [|split; [now apply ordered_filter|split; [|reflexivity]]].
  - unfold run_composition.
    destruct (Intersect_stage true A B fuel (NewSliceStream A) (NewSliceStream B))
      as (a & b & Hs); auto using delivers_NewSliceStream; [lia|].
    rewrite Hs.
    destruct (Diff_stage true (eager_intersect A B) C fuel
                {| pipe := eager_intersect A B; closed := true |} (NewSliceStream C))
      as (ab & c & Hs'); auto using delivers_NewSliceStream, delivers_closed_channel;
      [lia|].
    rewrite Hs'.
    destruct (ToSlice_delivers (eager_diff (eager_intersect A B) C) fuel
                {| pipe := eager_diff (eager_intersect A B) C; closed := true |})
      as (abc & Hc).
    + apply delivers_closed_channel.
    + pose proof (eager_diff_length (eager_intersect A B) C). lia.
    + now rewrite Hc.
  - intros x. rewrite eager_diff_In, eager_intersect_In. reflexivity.
Qed.

Lemma composition_refines_eager_witness :
  run_composition 8 [1; 2; 4] [2; 4] [4; 5]
  = Some (eager_diff (eager_intersect [1; 2; 4] [2; 4]) [4; 5]) /\
  ordered true (eager_diff (eager_intersect [1; 2; 4] [2; 4]) [4; 5]) = true /\
  (forall x, In x (eager_diff (eager_intersect [1; 2; 4] [2; 4]) [4; 5])
             <-> (In x [1; 2; 4] /\ In x [2; 4]) /\ ~ In x [4; 5]) /\
  run_composition 8 [1; 2; 3] [2; 3] [3] = Some [2].
Proof.
  apply (composition_refines_eager [1; 2; 4] [2; 4] [4; 5] 8);
    [reflexivity | reflexivity | reflexivity | simpl; lia].
Defined.

(** ** Early stop *)

(** C7.  [Intersect([1,2,3],[1],asc=true)] returns [[1]] and leaves [[3]] to
    read on the left (the cursor stands after the value [2], which was pulled
    and dropped) and nothing on the right; [Diff([1],[1,2,3],asc=true)]
    returns nothing and leaves [[2,3]] to read on the right. *)
Theorem early_stop_residue :
  run_test OpIntersect 8 [1; 2; 3] [1] true = Some ([1], [3], []) /\
  Intersect 8 (NewSliceStream [1; 2; 3]) (NewSliceStream [1]) true
  = Some ({| pipe := [1]; closed := true |},
          {| slice := [1; 2; 3]; pos := 2 |}, {| slice := [1]; pos := 1 |}) /\
  run_test OpDiff 8 [1] [1; 2; 3] true = Some ([], [], [2; 3]).
Proof. repeat split. Qed.

(** ** The adapters *)

Lemma SliceStream_exhausted (s s' : SliceStream) (item : T) :
  Next s = Some (item, false, s') ->
  s' = s /\ item = zero /\ (length (slice s) <= pos s)%nat.
Proof.
  unfold Next, SliceStream_stream, SliceStream_Next.
  destruct (Nat.ltb_spec (pos s) (length (slice s))) as [Hlt|Hge]; intros H;
    [discriminate|].
  injection H as Hi Hs. subst. auto.
Qed.

Lemma SliceStream_at_end (s : SliceStream) :
  (length (slice s) <= pos s)%nat -> Next s = Some (zero, false, s).
Proof.
  intros Hp. unfold Next, SliceStream_stream, SliceStream_Next.
  destruct (Nat.ltb_spec (pos s) (length (slice s))); [lia|reflexivity].
Qed.

Lemma ChannelStream_exhausted (c c' : ChannelStream) (item : T) :
  Next c = Some (item, false, c') ->
  c' = c /\ item = zero /\ pipe c = [] /\ closed c = true.
Proof.
  unfold Next, ChannelStream_stream, ChannelStream_Next.
  destruct (pipe c) as [|x rest]; [|discriminate].
  destruct (closed c); intros H; [|discriminate].
  injection H as Hi Hs. subst. auto.
Qed.

Lemma ChannelStream_closed_empty (c : ChannelStream) :
  pipe c = [] -> closed c = true -> Next c = Some (zero, false, c).
Proof.
  intros Hp Hc. unfold Next, ChannelStream_stream, ChannelStream_Next.
  now rewrite Hp, Hc.
Qed.

(** A channel that has reported exhaustion takes no further value. *)
Lemma ChannelStream_exhausted_no_Push (c c' : ChannelStream) (item x : T) :
  Next c = Some (item, false, c') -> Push x c' = None /\ Close c' = None.
Proof.
  intros H. apply ChannelStream_exhausted in H. destruct H as (-> & _ & _ & Hc).
  unfold Push, Close. now rewrite Hc.
Qed.

(** C8.  Once [Next] has returned [ok = false] on a [SliceStream] or on a
    [ChannelStream], each of any number of further calls returns
    [ok = false]. *)
Theorem exhaustion_idempotent :
  (forall (s s' : SliceStream) (item : T) (n : nat),
      Next s = Some (item, false, s') -> Next_oks n s' = Some (repeat false n)) /\
  (forall (c c' : ChannelStream) (item : T) (n : nat),
      Next c = Some (item, false, c') -> Next_oks n c' = Some (repeat false n)).
Proof.
  split.
  - intros s s' item n H. apply SliceStream_exhausted in H.
    destruct H as (-> & _ & Hp).
    induction n as [|n IH]; [reflexivity|].
    simpl. rewrite (SliceStream_at_end s Hp), IH. reflexivity.
  - intros c c' item n H. apply ChannelStream_exhausted in H.
    destruct H as (-> & _ & Hp & Hc).
    induction n as [|n IH]; [reflexivity|].
    simpl. rewrite (ChannelStream_closed_empty c Hp Hc), IH. reflexivity.
Qed.

Lemma exhaustion_idempotent_witness :
  Next_oks 3 {| slice := [1; 2]; pos := 2 |} = Some [false; false; false] /\
  Next_oks 3 {| pipe := []; closed := true |} = Some [false; false; false].
Proof.
  split.
  - apply (proj1 exhaustion_idempotent
             {| slice := [1; 2]; pos := 2 |} {| slice := [1; 2]; pos := 2 |} zero 3%nat).
    reflexivity.
  - apply (proj2 exhaustion_idempotent
             {| pipe := []; closed := true |} {| pipe := []; closed := true |} zero 3%nat).
    reflexivity.
Defined.

(** C9.  Whatever the two streams, the stop policy and the direction, every
    call that [iterate] makes to its callback has at least one pointer set:
    the recorded pointer pairs are left-only, right-only or both, never both
    nil. *)
Theorem callback_never_both_nil {S1 S2 : Type}
    {stream1_next : SortedNumbersStream S1} {stream2_next : SortedNumbersStream S2}
    (stop : shouldStop) (asc : bool) (fuel : nat) (s1 s1' : S1) (s2 s2' : S2)
    (calls : list (option T * option T)) :
  iterate record stop asc fuel s1 s2 [] = Some (s1', s2', calls) ->
  Forall (fun c => both_nil c = false) calls.
Proof.
  apply (iterate_keeps record stop asc (Forall (fun c => both_nil c = false))).
  - intros a b r r' Hab Hr H. injection H as <-.
    apply Forall_app. split; [exact Hr|]. constructor; [exact Hab|constructor].
  - constructor.
Qed.

Lemma callback_never_both_nil_witness :
  Forall (fun c => both_nil c = false)
    [(Some 1, None); (None, Some 2); (Some 3, Some 3); (None, Some 4)].
Proof.
  apply (callback_never_both_nil unionStop true 8
           (NewSliceStream [1; 3]) {| slice := [1; 3]; pos := 2 |}
           (NewSliceStream [2; 3; 4]) {| slice := [2; 3; 4]; pos := 3 |}).
  reflexivity.
Defined.

(** C10.  An exhausted stream returns the zero value with [ok = false]: a
    [SliceStream] whose cursor has reached the end of its slice, and a
    [ChannelStream] that has been closed with nothing left to receive;
    neither adapter ever returns another value with [ok = false]. *)
Theorem exhausted_Next_returns_zero :
  (forall s : SliceStream,
      (length (slice s) <= pos s)%nat -> Next s = Some (zero, false, s)) /\
  (forall c c' : ChannelStream,
      Close c = Some c' -> pipe c = [] -> Next c' = Some (zero, false, c')) /\
  (forall (s s' : SliceStream) (item : T),
      Next s = Some (item, false, s') -> item = zero) /\
  (forall (c c' : ChannelStream) (item : T),
      Next c = Some (item, false, c') -> item = zero).
Proof.
  split; [exact SliceStream_at_end|].
  split.
  - intros c c'. unfold Close. destruct (closed c); [discriminate|].
    intros H Hp. injection H as <-.
    now apply ChannelStream_closed_empty.
  - split.
    + intros s s' item H. now apply SliceStream_exhausted in H.
    + intros c c' item H. now apply ChannelStream_exhausted in H.
Qed.

Lemma exhausted_Next_returns_zero_witness :
  Next {| slice := [5; 6]; pos := 2 |}
  = Some (zero, false, {| slice := [5; 6]; pos := 2 |}) /\
  Next {| pipe := []; closed := true |}
  = Some (zero, false, {| pipe := []; closed := true |}).
Proof.
  destruct exhausted_Next_returns_zero as (Hslice & Hchan & _ & _).
  split.
  - apply (Hslice {| slice := [5; 6]; pos := 2 |}). simpl. lia.
  - apply (Hchan NewChannelStream {| pipe := []; closed := true |});
      reflexivity.
Defined.

(** * Further properties of the code *)

(** ** The loop refines the list merge, for any stop policy *)

Section GeneralRefinement.
Context {S1 S2 R E : Type}.
Context {stream1_next : SortedNumbersStream S1}.
Context {stream2_next : SortedNumbersStream S2}.

Variable view : R -> list E.
Variable usable : R -> Prop.
Variable f : option T -> option T -> list E.
Variable op : operation R.
Variable stop : shouldStop.
Variable asc : bool.

Hypothesis op_appends : appends view usable f op.

Lemma drain_left_general (tail : list T) :
  forall fuel i1 empty1 (s1 : S1) r,
    delivers s1 tail -> usable r -> (length tail < fuel)%nat ->
    exists s1' r',
      drain_left op fuel i1 empty1 s1 r = Some (s1', r') /\
      view r' = view r ++ flat_map (fun z => f (Some z) None) (pending empty1 i1 tail) /\
      usable r'.
Proof.
  induction tail as [|x tail IH]; intros fuel i1 empty1 s1 r Hd Hr Hf;
    (destruct fuel as [|fuel]; [simpl in Hf; lia|]); simpl in Hd, Hf.
  - destruct Hd as (z & s1' & Hn).
    destruct empty1; simpl.
    + rewrite Hn. simpl. exists s1', r. now rewrite app_nil_r.
    + destruct (op_appends (Some i1) None r Hr) as (r1 & Hop & Hp & Hc).
      rewrite Hop, Hn. simpl. exists s1', r1. now rewrite app_nil_r.
  - destruct Hd as (s1' & Hn & Hd).
    destruct empty1; simpl.
    + rewrite Hn. simpl.
      destruct (op_appends (Some x) None r Hr) as (r1 & Hop & Hp & Hc).
      rewrite Hop.
      destruct (IH fuel x true s1' r1 Hd Hc ltac:(lia)) as (s1'' & r2 & Hl & Hp2 & Hc2).
      exists s1'', r2. rewrite Hl, Hp2, Hp. simpl.
      now rewrite <- app_assoc.
    + destruct (op_appends (Some i1) None r Hr) as (r0 & Hop0 & Hp0 & Hc0).
      rewrite Hop0, Hn. simpl.
      destruct (op_appends (Some x) None r0 Hc0) as (r1 & Hop & Hp & Hc).
      rewrite Hop.
      destruct (IH fuel x true s1' r1 Hd Hc ltac:(lia)) as (s1'' & r2 & Hl & Hp2 & Hc2).
      exists s1'', r2. rewrite Hl, Hp2, Hp, Hp0. simpl.
      now rewrite <- !app_assoc.
Qed.

(** Lines 152-161: with no head buffered every pulled value is emitted once;
    with a head buffered every pulled value is emitted twice. *)
Lemma drain_right_general (tail : list T) :
  forall fuel i2 empty2 (s2 : S2) r,
    delivers s2 tail -> usable r -> (length tail < fuel)%nat ->
    exists s2' r',
      drain_right op fuel i2 empty2 s2 r = Some (s2', r') /\
      view r' = view r ++
                (if empty2 then flat_map (fun z => f None (Some z)) tail
                 else f None (Some i2)
                      ++ flat_map (fun z => f None (Some z) ++ f None (Some z)) tail) /\
      usable r'.
Proof.
  induction tail as [|x tail IH]; intros fuel i2 empty2 s2 r Hd Hr Hf;
    (destruct fuel as [|fuel]; [simpl in Hf; lia|]); simpl in Hd, Hf.
  - destruct Hd as (z & s2' & Hn).
    destruct empty2; simpl.
    + rewrite Hn. simpl. exists s2', r. now rewrite app_nil_r.
    + destruct (op_appends None (Some i2) r Hr) as (r1 & Hop & Hp & Hc).
      rewrite Hop, Hn. simpl. exists s2', r1. now rewrite app_nil_r.
  - destruct Hd as (s2' & Hn & Hd).
    destruct empty2; simpl.
    + rewrite Hn. simpl.
      destruct (op_appends None (Some x) r Hr) as (r1 & Hop & Hp & Hc).
      rewrite Hop.
      destruct (IH fuel x true s2' r1 Hd Hc ltac:(lia)) as (s2'' & r2 & Hl & Hp2 & Hc2).
      exists s2'', r2. rewrite Hl, Hp2, Hp. simpl.
      now rewrite <- app_assoc.
    + destruct (op_appends None (Some i2) r Hr) as (r0 & Hop0 & Hp0 & Hc0).
      rewrite Hop0, Hn. simpl.
      destruct (op_appends None (Some x) r0 Hc0) as (r1 & Hop & Hp & Hc).
      rewrite Hop.
      destruct (IH fuel x false s2' r1 Hd Hc ltac:(lia)) as (s2'' & r2 & Hl & Hp2 & Hc2).
      exists s2'', r2. rewrite Hl, Hp2, Hp, Hp0. simpl.
      now rewrite <- !app_assoc.
Qed.

Lemma merge_general_nil (buffered : bool) (B : list T) :
  merge_general f stop asc [] buffered B =
  if stop true false then []
  else if buffered then
    match B with
    | [] => []
    | y :: B' =>
        f None (Some y) ++ flat_map (fun z => f None (Some z) ++ f None (Some z)) B'
    end
  else flat_map (fun z => f None (Some z)) B.
Proof. reflexivity. Qed.

Lemma merge_general_right_nil (x : T) (A : list T) (buffered : bool) :
  merge_general f stop asc (x :: A) buffered [] =
  if stop false true then [] else flat_map (fun z => f (Some z) None) (x :: A).
Proof. reflexivity. Qed.

Lemma merge_general_cons (x y : T) (A B : list T) (buffered : bool) :
  merge_general f stop asc (x :: A) buffered (y :: B) =
  if x =? y then f (Some x) (Some y) ++ merge_general f stop asc A false B
  else if before asc x y then
    f (Some x) None ++ merge_general f stop asc A true (y :: B)
  else f None (Some y) ++ merge_general f stop asc (x :: A) false B.
Proof. reflexivity. Qed.

Lemma compare_heads_general (v : frame S1 S2 R) :
  usable (res v) ->
  exists v',
    compare_heads op asc v = Some v' /\
    usable (res v') /\
    stream1 v' = stream1 v /\ stream2 v' = stream2 v /\
    i1 v' = i1 v /\ i2 v' = i2 v /\
    if i1 v =? i2 v then
      view (res v') = view (res v) ++ f (Some (i1 v)) (Some (i2 v)) /\
      empty1 v' = true /\ empty2 v' = true
    else if before asc (i1 v) (i2 v) then
      view (res v') = view (res v) ++ f (Some (i1 v)) None /\
      empty1 v' = true /\ empty2 v' = empty2 v
    else
      view (res v') = view (res v) ++ f None (Some (i2 v)) /\
      empty1 v' = empty1 v /\ empty2 v' = true.
Proof.
  intros Hr. unfold compare_heads, before.
  destruct (Z.eqb_spec (i1 v) (i2 v)) as [He|Hne].
  - destruct (op_appends (Some (i1 v)) (Some (i2 v)) (res v) Hr) as (r & Hop & Hp & Hc).
    rewrite Hop. eexists. repeat split; simpl; auto.
  - destruct (op_appends (Some (i1 v)) None (res v) Hr) as (rl & Hopl & Hpl & Hcl).
    destruct (op_appends None (Some (i2 v)) (res v) Hr) as (rr & Hopr & Hpr & Hcr).
    rewrite Z.gtb_ltb.
    destruct asc; simpl;
      destruct (Z.ltb_spec (i1 v) (i2 v)); destruct (Z.ltb_spec (i2 v) (i1 v));
      try lia; simpl; rewrite ?Hopl, ?Hopr; eexists; repeat split; simpl; auto.
Qed.

(** Lines 146-164: a return with nothing pending on the left, after the drain
    of the right side if the policy asks for it, or a head buffered on the
    left. *)
Lemma read_left_general fuel (v : frame S1 S2 R) tailA tailB :
  delivers (stream1 v) tailA -> delivers (stream2 v) tailB ->
  usable (res v) -> (length tailB < fuel)%nat ->
  (pending (empty1 v) (i1 v) tailA = [] /\
   exists s1' s2' r',
     read_left op stop fuel v = Some (inr (s1', s2', r')) /\
     view r' = view (res v)
               ++ merge_general f stop asc [] (negb (empty2 v))
                    (pending (empty2 v) (i2 v) tailB) /\
     usable r')
  \/
  (exists v1 tailA1,
      read_left op stop fuel v = Some (inl v1) /\
      empty1 v1 = false /\
      pending (empty1 v) (i1 v) tailA = i1 v1 :: tailA1 /\
      delivers (stream1 v1) tailA1 /\
      i2 v1 = i2 v /\ empty2 v1 = empty2 v /\
      stream2 v1 = stream2 v /\ res v1 = res v).
Proof.
  intros HdA HdB Hr Hf. unfold read_left, pending.
  destruct (empty1 v) eqn:He1.
  - destruct tailA as [|x tailA]; simpl in HdA.
    + destruct HdA as (z & s1' & Hn). left. split; [reflexivity|].
      rewrite Hn, merge_general_nil. simpl.
      destruct (stop true false).
      * exists s1', (stream2 v), (res v). now rewrite app_nil_r.
      * destruct (drain_right_general tailB fuel (i2 v) (empty2 v) (stream2 v) (res v)
                    HdB Hr Hf) as (s2' & r' & Hl & Hp & Hc).
        rewrite Hl. exists s1', s2', r'. split; [reflexivity|].
        split; [|exact Hc]. rewrite Hp. now destruct (empty2 v).
    + destruct HdA as (s1' & Hn & HdA). right.
      rewrite Hn. simpl. eexists _, tailA. repeat split; simpl; auto.
  - right. exists v, tailA. repeat split; auto.
Qed.

(** Lines 166-185, entered with a head buffered on the left. *)
Lemma read_right_general fuel (v : frame S1 S2 R) tailA tailB :
  empty1 v = false ->
  delivers (stream1 v) tailA -> delivers (stream2 v) tailB ->
  usable (res v) -> (length tailA < fuel)%nat ->
  (pending (empty2 v) (i2 v) tailB = [] /\
   exists s1' s2' r',
     read_right op stop fuel v = Some (inr (s1', s2', r')) /\
     view r' = view (res v)
               ++ merge_general f stop asc (i1 v :: tailA) (negb (empty2 v)) [] /\
     usable r')
  \/
  (exists v2 tailB2,
      read_right op stop fuel v = Some (inl v2) /\
      empty2 v2 = false /\
      pending (empty2 v) (i2 v) tailB = i2 v2 :: tailB2 /\
      delivers (stream2 v2) tailB2 /\
      i1 v2 = i1 v /\ empty1 v2 = empty1 v /\
      stream1 v2 = stream1 v /\ res v2 = res v).
Proof.
  intros He1 HdA HdB Hr Hf. unfold read_right, pending.
  destruct (empty2 v) eqn:He2.
  - destruct tailB as [|y tailB]; simpl in HdB.
    + destruct HdB as (z & s2' & Hn). left. split; [reflexivity|].
      rewrite Hn, merge_general_right_nil. simpl.
      destruct (stop false true).
      * exists (stream1 v), s2', (res v). now rewrite app_nil_r.
      * destruct (drain_left_general tailA fuel (i1 v) (empty1 v) (stream1 v) (res v)
                    HdA Hr Hf) as (s1' & r' & Hl & Hp & Hc).
        rewrite Hl. exists s1', s2', r'. rewrite He1 in Hp. repeat split; auto.
    + destruct HdB as (s2' & Hn & HdB). right.
      rewrite Hn. simpl. eexists _, tailB. repeat split; simpl; auto.
  - right. exists v, tailB. repeat split; auto.
Qed.

Lemma iterate_loop_general :
  forall fuel (v : frame S1 S2 R) tailA tailB,
    delivers (stream1 v) tailA -> delivers (stream2 v) tailB ->
    usable (res v) ->
    (S (length (pending (empty1 v) (i1 v) tailA)
        + length (pending (empty2 v) (i2 v) tailB)) < fuel)%nat ->
    exists s1' s2' r',
      iterate_loop op stop asc fuel v = Some (s1', s2', r') /\
      view r' = view (res v)
                ++ merge_general f stop asc (pending (empty1 v) (i1 v) tailA)
                     (negb (empty2 v)) (pending (empty2 v) (i2 v) tailB) /\
      usable r'.
Proof.
  induction fuel as [|fuel IH]; intros v tailA tailB HdA HdB Hr Hf; [lia|].
  simpl.
  assert (HfB : (length tailB < fuel)%nat).
  { unfold pending in Hf. destruct (empty1 v), (empty2 v); simpl in Hf; lia. }
  destruct (read_left_general fuel v tailA tailB HdA HdB Hr HfB)
    as [(HA & s1' & s2' & r' & Hrl & Hp & Hc)
       | (v1 & tailA1 & Hrl & He1 & HA & HdA1 & Hi2 & He2 & Hs2 & Hres)];
    rewrite Hrl, HA in *.
  { exists s1', s2', r'. auto. }
  rewrite <- Hs2 in HdB. rewrite <- Hres in Hr.
  rewrite <- Hi2, <- He2 in Hf |- *. rewrite <- Hres.
  clear Hrl Hi2 He2 Hs2 Hres HA HdA HfB v.
  simpl in Hf.
  destruct (read_right_general fuel v1 tailA1 tailB He1 HdA1 HdB Hr ltac:(lia))
    as [(HB & s1' & s2' & r' & Hrr & Hp & Hc)
       | (v2 & tailB2 & Hrr & He2 & HB & HdB2 & Hi1 & He1' & Hs1 & Hres)];
    rewrite Hrr, HB in *.
  { exists s1', s2', r'. auto. }
  rewrite <- Hs1 in HdA1. rewrite <- Hres in Hr.
  rewrite <- Hi1, <- Hres. rewrite <- He1' in He1.
  clear Hrr Hi1 He1' Hs1 Hres HB HdB.
  simpl in Hf.
  destruct (compare_heads_general v2 Hr)
    as (v' & Hcmp & Hc & Hs1 & Hs2 & Hi1 & Hi2 & Hcase).
  rewrite Hcmp, merge_general_cons.
  rewrite <- Hs1 in HdA1. rewrite <- Hs2 in HdB2.
  destruct (i1 v2 =? i2 v2).
  - destruct Hcase as (Hp & He1' & He2').
    destruct (IH v' tailA1 tailB2 HdA1 HdB2 Hc) as (s1' & s2' & r' & Hl & Hp' & Hc').
    { rewrite He1', He2'. simpl. lia. }
    exists s1', s2', r'. rewrite Hl, Hp', Hp, He1', He2'. simpl.
    now rewrite <- app_assoc.
  - destruct (before asc (i1 v2) (i2 v2)).
    + destruct Hcase as (Hp & He1' & He2').
      destruct (IH v' tailA1 tailB2 HdA1 HdB2 Hc) as (s1' & s2' & r' & Hl & Hp' & Hc').
      { rewrite He1', He2', He2. simpl. lia. }
      exists s1', s2', r'. rewrite Hl, Hp', Hp, He1', He2', He2, Hi2. simpl.
      now rewrite <- app_assoc.
    + destruct Hcase as (Hp & He1' & He2').
      destruct (IH v' tailA1 tailB2 HdA1 HdB2 Hc) as (s1' & s2' & r' & Hl & Hp' & Hc').
      { rewrite He1', He2', He1. simpl. lia. }
      exists s1', s2', r'. rewrite Hl, Hp', Hp, He1', He2', He1, Hi1. simpl.
      now rewrite <- app_assoc.
Qed.

(** [iterate] on two streams that deliver [A] and [B] returns, and what it has
    appended is the list merge of [A] and [B]. *)
Lemma iterate_general (A B : list T) (fuel : nat) (s1 : S1) (s2 : S2) (r : R) :
  delivers s1 A -> delivers s2 B -> usable r ->
  (S (length A + length B) < fuel)%nat ->
  exists s1' s2' r',
    iterate op stop asc fuel s1 s2 r = Some (s1', s2', r') /\
    view r' = view r ++ merge_general f stop asc A false B /\ usable r'.
Proof.
  intros HdA HdB Hr Hf. unfold iterate.
  apply (iterate_loop_general fuel
           {| i1 := zero; i2 := zero; empty1 := true; empty2 := true;
              stream1 := s1; stream2 := s2; res := r |} A B);
    auto.
Qed.
End GeneralRefinement.

(** ** Union as a list function *)

Lemma unionOperation_appends :
  appends pipe (fun r => closed r = false) union_emit unionOperation.
Proof.
  intros [a|] [b|] r Hr; simpl; auto using Push_open, keep_open.
Qed.

Lemma flat_map_singleton (l : list T) : flat_map (fun z => [z]) l = l.
Proof.
  induction l as [|x l IH]; [reflexivity|]. simpl. now rewrite IH.
Qed.

Lemma union_list_nil (asc buffered : bool) (B : list T) :
  union_list asc buffered [] B =
  if buffered then
    match B with
    | [] => []
    | y :: B' => y :: flat_map (fun z => [z; z]) B'
    end
  else B.
Proof.
  unfold union_list. rewrite merge_general_nil. simpl.
  destruct buffered; [destruct B; reflexivity|apply flat_map_singleton].
Qed.

Lemma union_list_right_nil (asc buffered : bool) (x : T) (A : list T) :
  union_list asc buffered (x :: A) [] = x :: A.
Proof.
  unfold union_list. rewrite merge_general_right_nil. simpl.
  now rewrite flat_map_singleton.
Qed.

Lemma union_list_cons (asc buffered : bool) (x y : T) (A B : list T) :
  union_list asc buffered (x :: A) (y :: B) =
  if x =? y then x :: union_list asc false A B
  else if before asc x y then x :: union_list asc true A (y :: B)
  else y :: union_list asc false (x :: A) B.
Proof.
  unfold union_list. rewrite merge_general_cons. reflexivity.
Qed.

Lemma In_doubled (z : T) (l : list T) :
  In z (flat_map (fun x => [x; x]) l) <-> In z l.
Proof.
  induction l as [|x l IH]; [reflexivity|]. simpl. tauto.
Qed.

Lemma length_doubled (l : list T) :
  length (flat_map (fun x => [x; x]) l) = (2 * length l)%nat.
Proof.
  induction l as [|x l IH]; [reflexivity|]. simpl. lia.
Qed.

Lemma union_list_In (asc : bool) (z : T) (A : list T) :
  forall buffered B,
    In z (union_list asc buffered A B) <-> In z A \/ In z B.
Proof.
  induction A as [|x A IHA]; intros buffered B.
  - rewrite union_list_nil. destruct buffered; [|simpl; tauto].
    destruct B as [|y B]; [simpl; tauto|].
    simpl. rewrite In_doubled. tauto.
  - revert buffered. induction B as [|y B IHB]; intros buffered.
    + rewrite union_list_right_nil. simpl. tauto.
    + rewrite union_list_cons.
      destruct (Z.eqb_spec x y) as [->|Hne]; [|destruct (before asc x y)].
      * simpl. rewrite IHA. tauto.
      * simpl. rewrite IHA. simpl. tauto.
      * simpl. rewrite IHB. simpl. tauto.
Qed.

Lemma union_list_length (asc : bool) (A : list T) :
  forall buffered B,
    (length (union_list asc buffered A B) <= length A + 2 * length B)%nat.
Proof.
  induction A as [|x A IHA]; intros buffered B.
  - rewrite union_list_nil. destruct buffered; [|simpl; lia].
    destruct B as [|y B]; [simpl; lia|].
    simpl. rewrite length_doubled. lia.
  - revert buffered. induction B as [|y B IHB]; intros buffered.
    + rewrite union_list_right_nil. simpl. lia.
    + rewrite union_list_cons.
      destruct (x =? y); [|destruct (before asc x y)]; simpl.
      * specialize (IHA false B). lia.
      * specialize (IHA true (y :: B)). simpl in IHA. lia.
      * specialize (IHB false). simpl in IHB. lia.
Qed.

Lemma Union_stage {S1 S2 : Type}
    {stream1_next : SortedNumbersStream S1} {stream2_next : SortedNumbersStream S2}
    (asc : bool) (A B : list T) (fuel : nat) (s1 : S1) (s2 : S2) :
  delivers s1 A -> delivers s2 B -> (S (length A + length B) < fuel)%nat ->
  exists s1' s2',
    Union fuel s1 s2 asc
    = Some ({| pipe := union_list asc false A B; closed := true |}, s1', s2').
Proof.
  intros HdA HdB Hf. unfold Union, stage.
  destruct (iterate_general pipe (fun r => closed r = false) union_emit
              unionOperation unionStop asc unionOperation_appends
              A B fuel s1 s2 NewChannelStream HdA HdB eq_refl Hf)
    as (s1' & s2' & r' & Hi & Hp & Hc).
  rewrite Hi. unfold Close. rewrite Hc, Hp. now exists s1', s2'.
Qed.

Lemma run_Union (asc : bool) (A B : list T) (fuel : nat) :
  (S (length A + 2 * length B) < fuel)%nat ->
  run OpUnion fuel A B asc = Some (union_list asc false A B).
Proof.
  intros Hf. unfold run, run_stage.
  destruct (Union_stage asc A B fuel (NewSliceStream A) (NewSliceStream B))
    as (a & b & Hs); auto using delivers_NewSliceStream; [lia|].
  rewrite Hs.
  destruct (ToSlice_delivers (union_list asc false A B) fuel
              {| pipe := union_list asc false A B; closed := true |}) as (c & Hc).
  - apply delivers_closed_channel.
  - pose proof (union_list_length asc A false B). lia.
  - now rewrite Hc.
Qed.







(** ** Where the loop leaves its inputs *)

Section FinalStates.
Context {S1 S2 R : Type}.
Context {stream1_next : SortedNumbersStream S1}.
Context {stream2_next : SortedNumbersStream S2}.

Variable op : operation R.
Variable stop : shouldStop.
Variable asc : bool.

Ltac peel :=
  match goal with
  | H : match ?x with _ => _ end = Some _ |- _ =>
      let E := fresh "E" in destruct x eqn:E; try discriminate H
  | H : Some _ = Some _ |- _ => injection H as ?; subst
  | H : (_, _) = (_, _) |- _ => injection H as ?; subst
  | H : negb ?b = true |- _ => apply negb_true_iff in H; subst
  end.

Lemma drain_right_exhausts :
  forall fuel i2 empty2 (s2 : S2) r s2' r',
    drain_right op fuel i2 empty2 s2 r = Some (s2', r') -> just_exhausted s2'.
Proof.
  induction fuel as [|fuel IH]; intros i2 empty2 s2 r s2' r' H; [discriminate|].
  simpl in H. repeat peel;
    first [eapply IH; eassumption | unfold just_exhausted; eauto].
Qed.

Lemma drain_left_exhausts :
  forall fuel i1 empty1 (s1 : S1) r s1' r',
    drain_left op fuel i1 empty1 s1 r = Some (s1', r') -> just_exhausted s1'.
Proof.
  induction fuel as [|fuel IH]; intros i1 empty1 s1 r s1' r' H; [discriminate|].
  simpl in H. repeat peel;
    first [eapply IH; eassumption | unfold just_exhausted; eauto].
Qed.

(** A return from lines 146-164: the left side has just reported exhaustion,
    and so has the right side unless the policy stopped the loop. *)
Lemma read_left_exhausts fuel (v : frame S1 S2 R) s1' s2' r' :
  read_left op stop fuel v = Some (inr (s1', s2', r')) ->
  just_exhausted s1' /\ (stop true false = false -> just_exhausted s2').
Proof.
  unfold read_left. intros H.
  destruct (empty1 v); [|discriminate].
  destruct (Next (stream1 v)) as [[[x ok] s1'']|] eqn:Hn; [|discriminate].
  destruct ok; simpl in H; [discriminate|].
  destruct (stop true false).
  - injection H as -> _ _. split; [now exists (stream1 v), x|discriminate].
  - destruct (drain_right op fuel (i2 v) (empty2 v) (stream2 v) (res v))
      as [[s2'' r'']|] eqn:Hd; [|discriminate].
    injection H as -> -> _. split; [now exists (stream1 v), x|].
    intros _. eapply drain_right_exhausts; eauto.
Qed.

Lemma read_right_exhausts fuel (v : frame S1 S2 R) s1' s2' r' :
  read_right op stop fuel v = Some (inr (s1', s2', r')) ->
  just_exhausted s2' /\ (stop false true = false -> just_exhausted s1').
Proof.
  unfold read_right. intros H.
  destruct (empty2 v); [|discriminate].
  destruct (Next (stream2 v)) as [[[x ok] s2'']|] eqn:Hn; [|discriminate].
  destruct ok; simpl in H; [discriminate|].
  destruct (stop false true).
  - injection H as _ -> _. split; [now exists (stream2 v), x|discriminate].
  - destruct (drain_left op fuel (i1 v) (empty1 v) (stream1 v) (res v))
      as [[s1'' r'']|] eqn:Hd; [|discriminate].
    injection H as -> -> _. split; [now exists (stream2 v), x|].
    intros _. eapply drain_left_exhausts; eauto.
Qed.

Lemma iterate_loop_exhausts :
  forall fuel (v : frame S1 S2 R) s1' s2' r',
    iterate_loop op stop asc fuel v = Some (s1', s2', r') ->
    (just_exhausted s1' \/ just_exhausted s2') /\
    (stop false true = false -> just_exhausted s1') /\
    (stop true false = false -> just_exhausted s2').
Proof.
  induction fuel as [|fuel IH]; intros v s1' s2' r' H; [discriminate|].
  simpl in H.
  destruct (read_left op stop fuel v) as [[v1|[[a b] r1]]|] eqn:Hl;
    try discriminate.
  - destruct (read_right op stop fuel v1) as [[v2|[[a b] r2]]|] eqn:Hr;
      try discriminate.
    + destruct (compare_heads op asc v2) as [v3|]; [|discriminate].
      now apply IH in H.
    + injection H as -> -> ->.
      apply read_right_exhausts in Hr. destruct Hr as [H2 H1]. auto.
  - injection H as -> -> ->.
    apply read_left_exhausts in Hl. destruct Hl as [H1 H2]. auto.
Qed.
End FinalStates.

Lemma SliceStream_drained (s : SliceStream) (fuel : nat) (l : list T) (s' : SliceStream) :
  just_exhausted s -> ToSlice fuel s = Some (l, s') -> l = [].
Proof.
  intros (s0 & z & Hn) H. apply SliceStream_exhausted in Hn.
  destruct Hn as (-> & _ & Hp).
  destruct fuel as [|fuel]; [discriminate|].
  unfold ToSlice in H. simpl in H.
  rewrite (SliceStream_at_end s0 Hp) in H. simpl in H.
  now injection H as <- _.
Qed.

(** ** The shape of every call *)

Section CallsWellFormed.
Context {S1 S2 R : Type}.
Context {stream1_next : SortedNumbersStream S1}.
Context {stream2_next : SortedNumbersStream S2}.

Variable op : operation R.
Variable stop : shouldStop.
Variable asc : bool.

(** A property of the callback's state that every well-formed call
    maintains; nothing is asked of a call with two different values or with
    both pointers nil. *)
Variable P : R -> Prop.
Hypothesis op_keeps :
  forall a b r r', well_formed_call (a, b) -> P r -> op a b r = Some r' -> P r'.

Lemma wf_left x r r' : P r -> op (Some x) None r = Some r' -> P r'.
Proof. now apply op_keeps. Qed.

Lemma wf_right y r r' : P r -> op None (Some y) r = Some r' -> P r'.
Proof. now apply op_keeps. Qed.

Lemma wf_both x r r' : P r -> op (Some x) (Some x) r = Some r' -> P r'.
Proof. now apply op_keeps. Qed.

Ltac peel :=
  match goal with
  | H : match ?x with _ => _ end = Some _ |- _ =>
      let E := fresh "E" in destruct x eqn:E; try discriminate H
  | H : Some _ = Some _ |- _ => injection H as ?; subst
  | H : (_, _) = (_, _) |- _ => injection H as ?; subst
  end.

Lemma drain_right_wf :
  forall fuel i2 empty2 (s2 : S2) r s2' r',
    P r -> drain_right op fuel i2 empty2 s2 r = Some (s2', r') -> P r'.
Proof.
  induction fuel as [|fuel IH]; intros i2 empty2 s2 r s2' r' Hr H;
    [discriminate|].
  simpl in H. repeat peel; eauto using wf_right.
Qed.

Lemma drain_left_wf :
  forall fuel i1 empty1 (s1 : S1) r s1' r',
    P r -> drain_left op fuel i1 empty1 s1 r = Some (s1', r') -> P r'.
Proof.
  induction fuel as [|fuel IH]; intros i1 empty1 s1 r s1' r' Hr H;
    [discriminate|].
  simpl in H. repeat peel; eauto using wf_left.
Qed.

Lemma compare_heads_wf (v v' : frame S1 S2 R) :
  P (res v) -> compare_heads op asc v = Some v' -> P (res v').
Proof.
  intros Hr H. unfold compare_heads in H.
  destruct (Z.eqb_spec (i1 v) (i2 v)) as [He|Hne].
  - rewrite <- He in H. repeat peel. simpl. eauto using wf_both.
  - repeat peel; simpl; eauto using wf_left, wf_right.
Qed.

Lemma read_left_wf fuel (v : frame S1 S2 R) :
  P (res v) ->
  match read_left op stop fuel v with
  | Some (inl v') => P (res v')
  | Some (inr (_, _, r')) => P r'
  | None => True
  end.
Proof.
  intros Hr. unfold read_left.
  destruct (empty1 v); [|exact Hr].
  destruct (Next (stream1 v)) as [[[x ok] s1']|]; [|exact I].
  destruct ok; simpl; [exact Hr|].
  destruct (stop true false); [exact Hr|].
  destruct (drain_right op fuel (i2 v) (empty2 v) (stream2 v) (res v))
    as [[s2' r']|] eqn:E; [|exact I].
  eapply drain_right_wf; eauto.
Qed.

Lemma read_right_wf fuel (v : frame S1 S2 R) :
  P (res v) ->
  match read_right op stop fuel v with
  | Some (inl v') => P (res v')
  | Some (inr (_, _, r')) => P r'
  | None => True
  end.
Proof.
  intros Hr. unfold read_right.
  destruct (empty2 v); [|exact Hr].
  destruct (Next (stream2 v)) as [[[x ok] s2']|]; [|exact I].
  destruct ok; simpl; [exact Hr|].
  destruct (stop false true); [exact Hr|].
  destruct (drain_left op fuel (i1 v) (empty1 v) (stream1 v) (res v))
    as [[s1' r']|] eqn:E; [|exact I].
  eapply drain_left_wf; eauto.
Qed.

Lemma iterate_loop_wf :
  forall fuel (v : frame S1 S2 R) s1' s2' r',
    P (res v) -> iterate_loop op stop asc fuel v = Some (s1', s2', r') -> P r'.
Proof.
  induction fuel as [|fuel IH]; intros v s1' s2' r' Hr H; [discriminate|].
  simpl in H.
  pose proof (read_left_wf fuel v Hr) as Hl.
  destruct (read_left op stop fuel v) as [[v1|[[a b] r1]]|]; try discriminate.
  - pose proof (read_right_wf fuel v1 Hl) as Hrr.
    destruct (read_right op stop fuel v1) as [[v2|[[a b] r2]]|]; try discriminate.
    + destruct (compare_heads op asc v2) as [v3|] eqn:Hc; [|discriminate].
      eapply IH; [|exact H]. eapply compare_heads_wf; eauto.
    + injection H as -> -> ->. exact Hrr.
  - injection H as -> -> ->. exact Hl.
Qed.
End CallsWellFormed.

(** ** Materialising the adapters *)

Lemma SliceStream_in_range (l : list T) (p : nat) :
  (p < length l)%nat ->
  Next {| slice := l; pos := p |}
  = Some (nth p l zero, true, {| slice := l; pos := S p |}).
Proof.
  intros Hp. unfold Next, SliceStream_stream, SliceStream_Next. simpl.
  destruct (Nat.ltb_spec p (length l)); [reflexivity|lia].
Qed.

Lemma ToSlice_loop_slice (k : nat) :
  forall (l : list T) (p fuel : nat) (ret : list T),
    (p + k = length l)%nat -> (k < fuel)%nat ->
    ToSlice_loop fuel {| slice := l; pos := p |} ret
    = Some (ret ++ skipn p l, {| slice := l; pos := length l |}).
Proof.
  induction k as [|k IH]; intros l p fuel ret Hp Hf;
    (destruct fuel as [|fuel]; [lia|]); simpl.
  - rewrite (SliceStream_at_end {| slice := l; pos := p |}) by (simpl; lia).
    simpl. rewrite skipn_all2 by lia. rewrite app_nil_r.
    replace p with (length l) by lia. reflexivity.
  - assert (Hlt : (p < length l)%nat) by lia.
    rewrite (SliceStream_in_range l p Hlt). simpl.
    rewrite (IH l (S p) fuel (ret ++ [nth p l zero])) by lia.
    rewrite (skipn_cons_nth l p Hlt), <- app_assoc. reflexivity.
Qed.

Lemma ToSlice_slice (l : list T) (p fuel : nat) :
  (p <= length l)%nat -> (length l - p < fuel)%nat ->
  ToSlice fuel {| slice := l; pos := p |}
  = Some (skipn p l, {| slice := l; pos := length l |}).
Proof.
  intros Hp Hf. unfold ToSlice.
  now rewrite (ToSlice_loop_slice (length l - p) l p fuel []) by lia.
Qed.

Lemma ToSlice_loop_closed_channel (l : list T) :
  forall (fuel : nat) (ret : list T),
    (length l < fuel)%nat ->
    ToSlice_loop fuel {| pipe := l; closed := true |} ret
    = Some (ret ++ l, {| pipe := []; closed := true |}).
Proof.
  induction l as [|x l IH]; intros fuel ret Hf;
    (destruct fuel as [|fuel]; [simpl in Hf; lia|]); simpl in *.
  - now rewrite app_nil_r.
  - rewrite (IH fuel (ret ++ [x])) by lia. now rewrite <- app_assoc.
Qed.

Lemma ToSlice_loop_closed_channel_run (l : list T) (fuel : nat) :
  (length l < fuel)%nat ->
  ToSlice fuel {| pipe := l; closed := true |}
  = Some (l, {| pipe := []; closed := true |}).
Proof.
  intros Hf. unfold ToSlice.
  now rewrite (ToSlice_loop_closed_channel l fuel []) by exact Hf.
Qed.

Lemma push_all_open (l : list T) :
  forall c, closed c = false ->
    push_all l c = Some {| pipe := pipe c ++ l; closed := false |}.
Proof.
  induction l as [|x l IH]; intros c Hc; simpl.
  - rewrite app_nil_r. destruct c as [p cl]. simpl in Hc. now subst.
  - unfold Push. rewrite Hc. rewrite IH by reflexivity.
    simpl. now rewrite <- app_assoc.
Qed.

(** ** Ordered sequences are determined by their members *)

Lemma ordered_ext (asc : bool) (l1 : list T) :
  forall l2,
    ordered asc l1 = true -> ordered asc l2 = true ->
    (forall x, In x l1 <-> In x l2) -> l1 = l2.
Proof.
  induction l1 as [|x l1 IH]; intros [|y l2] H1 H2 Hm.
  - reflexivity.
  - destruct (proj2 (Hm y) (or_introl eq_refl)).
  - destruct (proj1 (Hm x) (or_introl eq_refl)).
  - assert (Hxy : x = y).
    { destruct (proj1 (Hm x) (or_introl eq_refl)) as [Hyx|Hx]; [now subst|].
      destruct (proj2 (Hm y) (or_introl eq_refl)) as [Hxy|Hy]; [exact Hxy|].
      pose proof (ordered_head asc _ y H2 x Hx) as Hb1.
      pose proof (ordered_head asc _ x H1 y Hy) as Hb2.
      apply before_asym in Hb1. congruence. }
    subst y. f_equal.
    apply IH; [eapply ordered_tail; eauto|eapply ordered_tail; eauto|].
    intros z. split; intros Hz.
    + destruct (proj1 (Hm z) (or_intror Hz)) as [<-|Hz']; [|exact Hz'].
      pose proof (ordered_head asc _ x H1 x Hz) as Hb.
      now rewrite before_irrefl in Hb.
    + destruct (proj2 (Hm z) (or_intror Hz)) as [<-|Hz']; [|exact Hz'].
      pose proof (ordered_head asc _ x H2 x Hz) as Hb.
      now rewrite before_irrefl in Hb.
Qed.

(** ** Intersect and Diff on arbitrary sequences *)

Lemma merge_emit_intersect_In (asc : bool) (z : T) (A : list T) :
  forall B, In z (merge_emit intersect_emit asc A B) -> In z A /\ In z B.
Proof.
  induction A as [|x A IHA]; intros B; [rewrite merge_emit_nil_l; intros []|].
  induction B as [|y B IHB].
  - rewrite merge_emit_nil_r, flat_map_nil by reflexivity. intros [].
  - rewrite merge_emit_cons.
    destruct (Z.eqb_spec x y) as [<-|Hne]; [|destruct (before asc x y)]; simpl.
    + intros [<-|Hz]; [split; now left|].
      apply IHA in Hz. split; right; apply Hz.
    + intros Hz. apply IHA in Hz. split; [right|]; apply Hz.
    + intros Hz. apply IHB in Hz. split; [|right]; apply Hz.
Qed.

Lemma merge_emit_diff_In (asc : bool) (z : T) (A : list T) :
  forall B, In z (merge_emit diff_emit asc A B) -> In z A.
Proof.
  induction A as [|x A IHA]; intros B; [rewrite merge_emit_nil_l; intros []|].
  induction B as [|y B IHB].
  - rewrite merge_emit_nil_r. change (fun x0 : T => diff_emit (Some x0) None)
      with (fun x0 : T => [x0]). now rewrite flat_map_singleton.
  - rewrite merge_emit_cons.
    destruct (x =? y); [|destruct (before asc x y)]; simpl.
    + intros Hz. right. now apply IHA in Hz.
    + intros [<-|Hz]; [now left|]. right. now apply IHA in Hz.
    + exact IHB.
Qed.

Lemma merge_emit_length (f : emitter) (asc : bool) (A : list T) :
  (forall a b, (length (f (Some a) b) <= 1)%nat) ->
  (forall b, f None (Some b) = []) ->
  forall B, (length (merge_emit f asc A B) <= length A)%nat.
Proof.
  intros Hf1 Hf0.
  induction A as [|x A IHA]; intros B; [now rewrite merge_emit_nil_l|].
  induction B as [|y B IHB].
  - rewrite merge_emit_nil_r. clear IHA.
    induction (x :: A) as [|a l IH]; [reflexivity|].
    simpl. rewrite length_app. specialize (Hf1 a None). lia.
  - rewrite merge_emit_cons.
    destruct (x =? y); [|destruct (before asc x y)]; rewrite ?length_app.
    + specialize (Hf1 x (Some y)). specialize (IHA B). simpl. lia.
    + specialize (Hf1 x None). specialize (IHA (y :: B)). simpl. lia.
    + rewrite Hf0. exact IHB.
Qed.

Lemma run_Intersect_any (asc : bool) (A B : list T) (fuel : nat) :
  (length A + length B < fuel)%nat ->
  run OpIntersect fuel A B asc = Some (merge_emit intersect_emit asc A B).
Proof.
  intros Hf. unfold run, run_stage, Intersect.
  destruct (stage_merge intersect_emit intersectOperation intersectStop asc
              intersectOperation_emits eq_refl (fun _ _ => eq_refl)
              A B fuel (NewSliceStream A) (NewSliceStream B))
    as (a & b & Hs); auto using delivers_NewSliceStream.
  rewrite Hs, ToSlice_loop_closed_channel_run; [reflexivity|].
  pose proof (merge_emit_length intersect_emit asc A) as Hl.
  specialize (Hl ltac:(intros a0 [b0|]; simpl; lia) ltac:(reflexivity) B). lia.
Qed.

Lemma run_Diff_any (asc : bool) (A B : list T) (fuel : nat) :
  (length A + length B < fuel)%nat ->
  run OpDiff fuel A B asc = Some (merge_emit diff_emit asc A B).
Proof.
  intros Hf. unfold run, run_stage, Diff.
  destruct (stage_merge diff_emit diffOperation diffStop asc
              diffOperation_emits eq_refl
              (fun H : diffStop false true = true =>
                 False_ind _ (Bool.diff_false_true H))
              A B fuel (NewSliceStream A) (NewSliceStream B))
    as (a & b & Hs); auto using delivers_NewSliceStream.
  rewrite Hs, ToSlice_loop_closed_channel_run; [reflexivity|].
  pose proof (merge_emit_length diff_emit asc A) as Hl.
  specialize (Hl ltac:(intros a0 [b0|]; simpl; lia) ltac:(reflexivity) B). lia.
Qed.

Lemma merge_emit_intersect_self (asc : bool) (A : list T) :
  merge_emit intersect_emit asc A A = A.
Proof.
  induction A as [|x A IH]; [reflexivity|].
  rewrite merge_emit_cons, Z.eqb_refl, IH. reflexivity.
Qed.

Lemma merge_emit_diff_self (asc : bool) (A : list T) :
  merge_emit diff_emit asc A A = [].
Proof.
  induction A as [|x A IH]; [reflexivity|].
  rewrite merge_emit_cons, Z.eqb_refl, IH. reflexivity.
Qed.

Lemma union_list_self (asc : bool) (A : list T) :
  union_list asc false A A = A.
Proof.
  induction A as [|x A IH]; [reflexivity|].
  rewrite union_list_cons, Z.eqb_refl, IH. reflexivity.
Qed.

Lemma stage_exhausts {S1 S2 : Type}
    {stream1_next : SortedNumbersStream S1} {stream2_next : SortedNumbersStream S2}
    (op : operation ChannelStream) (stop : shouldStop) (fuel : nat)
    (s1 s1' : S1) (s2 s2' : S2) (asc : bool) (c : ChannelStream) :
  stage op stop fuel s1 s2 asc = Some (c, s1', s2') ->
  (just_exhausted s1' \/ just_exhausted s2') /\
  (stop false true = false -> just_exhausted s1') /\
  (stop true false = false -> just_exhausted s2').
Proof.
  unfold stage, iterate. intros H.
  match type of H with
  | match ?x with _ => _ end = _ => destruct x as [[[a b] r]|] eqn:Hi; [|discriminate]
  end.
  destruct (Close r); [|discriminate]. injection H as _ <- <-.
  eapply iterate_loop_exhausts; eauto.
Qed.

(** * Further properties, stated *)

(** X1.  On two streams that deliver the finite sequences [A] and [B],
    [iterate] returns for every stop policy and direction, and the calls it
    makes to its callback are, in order, those of the list merge
    [merge_general]. *)
Theorem iterate_calls_refine_merge {S1 S2 : Type}
    {stream1_next : SortedNumbersStream S1} {stream2_next : SortedNumbersStream S2}
    (stop : shouldStop) (asc : bool) (A B : list T) (fuel : nat) (s1 : S1) (s2 : S2) :
  delivers s1 A -> delivers s2 B -> (S (length A + length B) < fuel)%nat ->
  exists s1' s2',
    iterate record stop asc fuel s1 s2 []
    = Some (s1', s2', merge_general call_emit stop asc A false B).
Proof.
  intros HdA HdB Hf.
  assert (Hrec : appends (fun calls : list (option T * option T) => calls)
                   (fun _ => True) call_emit record).
  { intros a b r _. exists (r ++ [(a, b)]). repeat split. }
  destruct (iterate_general (fun calls => calls) (fun _ => True) call_emit
              record stop asc Hrec A B fuel s1 s2 [] HdA HdB I Hf)
    as (s1' & s2' & r' & Hi & Hv & _).
  exists s1', s2'. now rewrite Hi, Hv.
Qed.

Lemma iterate_calls_refine_merge_witness :
  exists s1' s2',
    iterate record diffStop false 6 (NewSliceStream [3; 1]) (NewSliceStream [2]) []
    = Some (s1', s2', merge_general call_emit diffStop false [3; 1] false [2]).
Proof.
  apply (iterate_calls_refine_merge diffStop false [3; 1] [2] 6);
    [apply delivers_NewSliceStream | apply delivers_NewSliceStream | simpl; lia].
Defined.

(** X2.  Whatever the two input sequences (ordered or not, with or without
    repeats), materialising [Union] returns, and its output has exactly the
    values that occur in [A] or in [B]; it is at most [|A| + 2|B|] long. *)
Theorem Union_members (asc : bool) (A B : list T) (fuel : nat) :
  (S (length A + 2 * length B) < fuel)%nat ->
  exists l,
    run OpUnion fuel A B asc = Some l /\
    (forall x, In x l <-> In x A \/ In x B) /\
    (length l <= length A + 2 * length B)%nat.
Proof.
  intros Hf. exists (union_list asc false A B).
  split; [now apply run_Union|].
  split; [intros x; apply union_list_In|apply union_list_length].
Qed.

Lemma Union_members_witness :
  exists l,
    run OpUnion 10 [5; 1] [2; 3; 9] true = Some l /\
    (forall x, In x l <-> In x [5; 1] \/ In x [2; 3; 9]) /\
    (length l <= length [5; 1] + 2 * length [2; 3; 9])%nat.
Proof.
  apply (Union_members true [5; 1] [2; 3; 9] 10). simpl. lia.
Defined.



(** X4.  In either direction, on inputs ordered in that direction,
    [Intersect] returns the values of [A] that are in [B] and [Diff] the
    values of [A] that are not in [B], each ordered in that direction. *)
Theorem Intersect_Diff_any_direction (asc : bool) (A B : list T) (fuel : nat) :
  ordered asc A = true -> ordered asc B = true ->
  (length A + length B < fuel)%nat ->
  run OpIntersect fuel A B asc = Some (eager_intersect A B) /\
  run OpDiff fuel A B asc = Some (eager_diff A B) /\
  ordered asc (eager_intersect A B) = true /\
  ordered asc (eager_diff A B) = true.
Proof.
  intros HA HB Hf.
  split; [now apply run_Intersect|].
  split; [now apply run_Diff|].
  split; now apply ordered_filter.
Qed.

Lemma Intersect_Diff_any_direction_witness :
  run OpIntersect 7 [3; 2; 1] [2; 1; 0] false = Some (eager_intersect [3; 2; 1] [2; 1; 0]) /\
  run OpDiff 7 [3; 2; 1] [2; 1; 0] false = Some (eager_diff [3; 2; 1] [2; 1; 0]) /\
  ordered false (eager_intersect [3; 2; 1] [2; 1; 0]) = true /\
  ordered false (eager_diff [3; 2; 1] [2; 1; 0]) = true.
Proof.
  apply (Intersect_Diff_any_direction false [3; 2; 1] [2; 1; 0] 7);
    [reflexivity | reflexivity | simpl; lia].
Defined.

Lemma Intersect_Diff_direction_symmetry_witness :
  run OpDiff 7 (rev [1; 2; 3]) (rev [0; 1; 2]) false
  = option_map (@rev T) (run OpDiff 7 [1; 2; 3] [0; 1; 2] true).
Proof.
  apply (Intersect_Diff_direction_symmetry OpDiff [1; 2; 3] [0; 1; 2] 7);
    [discriminate | reflexivity | reflexivity | simpl; lia].
Defined.

(** X6.  On inputs ordered in the declared direction, [Intersect] gives the
    same output whichever input is on the left. *)
Theorem Intersect_commutes (asc : bool) (A B : list T) (fuel : nat) :
  ordered asc A = true -> ordered asc B = true ->
  (length A + length B < fuel)%nat ->
  run OpIntersect fuel A B asc = run OpIntersect fuel B A asc.
Proof.
  intros HA HB Hf.
  rewrite (run_Intersect asc A B fuel HA HB Hf).
  rewrite (run_Intersect asc B A fuel HB HA) by lia.
  f_equal. apply (ordered_ext asc).
  - now apply ordered_filter.
  - now apply ordered_filter.
  - intros x. rewrite !eager_intersect_In. tauto.
Qed.

Lemma Intersect_commutes_witness :
  run OpIntersect 8 [0; 1; 2; 5] [1; 2; 3] true
  = run OpIntersect 8 [1; 2; 3] [0; 1; 2; 5] true.
Proof.
  apply (Intersect_commutes true [0; 1; 2; 5] [1; 2; 3] 8);
    [reflexivity | reflexivity | simpl; lia].
Defined.

(** X7.  Whatever the two input sequences (ordered or not), [Intersect] and
    [Diff] return; every value [Intersect] puts out occurs in both inputs,
    every value [Diff] puts out occurs in [A], and neither output is longer
    than [A]. *)
Theorem outputs_within_inputs (asc : bool) (A B : list T) (fuel : nat) :
  (length A + length B < fuel)%nat ->
  (exists l, run OpIntersect fuel A B asc = Some l /\
             (forall x, In x l -> In x A /\ In x B) /\
             (length l <= length A)%nat) /\
  (exists l, run OpDiff fuel A B asc = Some l /\
             (forall x, In x l -> In x A) /\
             (length l <= length A)%nat).
Proof.
  intros Hf. split.
  - exists (merge_emit intersect_emit asc A B).
    split; [now apply run_Intersect_any|].
    split; [intros x; apply merge_emit_intersect_In|].
    apply merge_emit_length; [intros a [b|]; simpl; lia|reflexivity].
  - exists (merge_emit diff_emit asc A B).
    split; [now apply run_Diff_any|].
    split; [intros x; apply merge_emit_diff_In|].
    apply merge_emit_length; [intros a [b|]; simpl; lia|reflexivity].
Qed.

Lemma outputs_within_inputs_witness :
  (exists l, run OpIntersect 6 [3; 1; 2] [2; 3] true = Some l /\
             (forall x, In x l -> In x [3; 1; 2] /\ In x [2; 3]) /\
             (length l <= length [3; 1; 2])%nat) /\
  (exists l, run OpDiff 6 [3; 1; 2] [2; 3] true = Some l /\
             (forall x, In x l -> In x [3; 1; 2]) /\
             (length l <= length [3; 1; 2])%nat).
Proof.
  apply (outputs_within_inputs true [3; 1; 2] [2; 3] 6). simpl. lia.
Defined.

(** X8.  Whatever the inputs, when an operation on two slices has returned:
    [Union] has read both inputs to the end, [Diff] has read its left input
    to the end, and [Intersect] has read at least one input to the end. *)
Theorem stages_drain_inputs (o : opname) (fuel : nat) (A B : list T) (asc : bool)
    (l restA restB : list T) :
  run_test o fuel A B asc = Some (l, restA, restB) ->
  match o with
  | OpUnion => restA = [] /\ restB = []
  | OpDiff => restA = []
  | OpIntersect => restA = [] \/ restB = []
  end.
Proof.
  unfold run_test. intros H.
  destruct (run_stage o fuel (NewSliceStream A) (NewSliceStream B) asc)
    as [[[c a] b]|] eqn:Hs; [|discriminate].
  destruct (ToSlice fuel c) as [[result c']|]; [|discriminate].
  destruct (ToSlice fuel a) as [[ra a']|] eqn:Ha; [|discriminate].
  destruct (ToSlice fuel b) as [[rb b']|] eqn:Hb; [|discriminate].
  injection H as _ <- <-.
  destruct o; simpl in Hs; apply stage_exhausts in Hs;
    destruct Hs as (Hany & H1 & H2).
  - split.
    + exact (SliceStream_drained a fuel ra a' (H1 eq_refl) Ha).
    + exact (SliceStream_drained b fuel rb b' (H2 eq_refl) Hb).
  - destruct Hany as [Hx|Hx]; [left|right].
    + exact (SliceStream_drained a fuel ra a' Hx Ha).
    + exact (SliceStream_drained b fuel rb b' Hx Hb).
  - exact (SliceStream_drained a fuel ra a' (H1 eq_refl) Ha).
Qed.

Lemma stages_drain_inputs_witness :
  [3] = @nil T \/ @nil T = [].
Proof.
  apply (stages_drain_inputs OpIntersect 8 [1; 2; 3] [1] true [1] [3] []).
  reflexivity.
Defined.

(** X9.  Materialising a new [SliceStream] gives back its slice and leaves
    the cursor at the end; materialising it again gives nothing; after
    [Reset] it gives the whole slice again. *)
Theorem SliceStream_replay (A : list T) (fuel : nat) :
  (length A < fuel)%nat ->
  ToSlice fuel (NewSliceStream A)
  = Some (A, {| slice := A; pos := length A |}) /\
  ToSlice fuel {| slice := A; pos := length A |}
  = Some ([], {| slice := A; pos := length A |}) /\
  ToSlice fuel (Reset {| slice := A; pos := length A |})
  = Some (A, {| slice := A; pos := length A |}).
Proof.
  intros Hf. unfold NewSliceStream, Reset. simpl.
  rewrite !ToSlice_slice by (simpl; lia).
  rewrite skipn_all. auto.
Qed.

Lemma SliceStream_replay_witness :
  ToSlice 4 (NewSliceStream [1; 2; 3])
  = Some ([1; 2; 3], {| slice := [1; 2; 3]; pos := length [1; 2; 3] |}) /\
  ToSlice 4 {| slice := [1; 2; 3]; pos := length [1; 2; 3] |}
  = Some ([], {| slice := [1; 2; 3]; pos := length [1; 2; 3] |}) /\
  ToSlice 4 (Reset {| slice := [1; 2; 3]; pos := length [1; 2; 3] |})
  = Some ([1; 2; 3], {| slice := [1; 2; 3]; pos := length [1; 2; 3] |}).
Proof.
  apply (SliceStream_replay [1; 2; 3] 4). simpl. lia.
Defined.

(** X10.  A producer that pushes the values of [l] on a new channel and
    closes it succeeds; materialising the channel gives back [l] in order and
    leaves it closed and empty; the closed channel takes no further [Push]
    or [Close]. *)
Theorem ChannelStream_round_trip (l : list T) (fuel : nat) :
  (length l < fuel)%nat ->
  exists c,
    produce l = Some c /\
    ToSlice fuel c = Some (l, {| pipe := []; closed := true |}) /\
    (forall x, Push x c = None) /\ Close c = None.
Proof.
  intros Hf. exists {| pipe := l; closed := true |}.
  split.
  - unfold produce. rewrite push_all_open by reflexivity. reflexivity.
  - split; [now apply ToSlice_loop_closed_channel_run|].
    split; reflexivity.
Qed.

Lemma ChannelStream_round_trip_witness :
  exists c,
    produce [1; 2; 3] = Some c /\
    ToSlice 4 c = Some ([1; 2; 3], {| pipe := []; closed := true |}) /\
    (forall x, Push x c = None) /\ Close c = None.
Proof.
  apply (ChannelStream_round_trip [1; 2; 3] 4). simpl. lia.
Defined.

(** X11.  Whatever the two streams, the stop policy and the direction, every
    call that [iterate] makes to its callback is well formed: one pointer
    set, or both set to the same value. *)
Theorem callback_calls_well_formed {S1 S2 : Type}
    {stream1_next : SortedNumbersStream S1} {stream2_next : SortedNumbersStream S2}
    (stop : shouldStop) (asc : bool) (fuel : nat) (s1 s1' : S1) (s2 s2' : S2)
    (calls : list (option T * option T)) :
  iterate record stop asc fuel s1 s2 [] = Some (s1', s2', calls) ->
  Forall well_formed_call calls.
Proof.
  unfold iterate.
  apply (iterate_loop_wf record stop asc (Forall well_formed_call)).
  - intros a b r r' Hab Hr H. injection H as <-.
    apply Forall_app. split; [exact Hr|]. constructor; [exact Hab|constructor].
  - constructor.
Qed.

Lemma callback_calls_well_formed_witness :
  Forall well_formed_call
    [(None, Some 0); (Some 1, None); (None, Some 2); (Some 3, Some 3)].
Proof.
  apply (callback_calls_well_formed intersectStop true 8
           (NewSliceStream [1; 3]) {| slice := [1; 3]; pos := 2 |}
           (NewSliceStream [0; 2; 3]) {| slice := [0; 2; 3]; pos := 3 |}).
  reflexivity.
Defined.

(** X12.  An operation given the same sequence on both sides, whatever the
    sequence: [Union] and [Intersect] return it unchanged and [Diff] returns
    nothing. *)
Theorem self_operations (asc : bool) (A : list T) (fuel : nat) :
  (S (3 * length A) < fuel)%nat ->
  run OpUnion fuel A A asc = Some A /\
  run OpIntersect fuel A A asc = Some A /\
  run OpDiff fuel A A asc = Some [].
Proof.
  intros Hf.
  rewrite run_Union, run_Intersect_any, run_Diff_any by lia.
  now rewrite union_list_self, merge_emit_intersect_self, merge_emit_diff_self.
Qed.

Lemma self_operations_witness :
  run OpUnion 8 [2; 1] [2; 1] true = Some [2; 1] /\
  run OpIntersect 8 [2; 1] [2; 1] true = Some [2; 1] /\
  run OpDiff 8 [2; 1] [2; 1] true = Some [].
Proof.
  apply (self_operations true [2; 1] 8). simpl. lia.
Defined.

(** X13.  With an empty left input, [Intersect] and [Diff] return nothing and
    do not read the right input at all.  With an empty right input,
    [Intersect] returns nothing after pulling one value from the left, which
    is lost to later readers. *)
Theorem empty_side_early_stop (asc : bool) (x : T) (A B : list T) (fuel : nat) :
  (S (length A + length B) < fuel)%nat ->
  run_test OpIntersect fuel [] B asc = Some ([], [], B) /\
  run_test OpDiff fuel [] B asc = Some ([], [], B) /\
  run_test OpIntersect fuel (x :: A) [] asc = Some ([], A, []).
Proof.
  intros Hf. destruct fuel as [|[|fuel]]; [lia|lia|].
  assert (HB : ToSlice (S (S fuel)) (NewSliceStream B)
               = Some (B, {| slice := B; pos := length B |})).
  { apply (ToSlice_slice B 0); lia. }
  assert (HA : ToSlice (S (S fuel)) {| slice := x :: A; pos := 1 |}
               = Some (A, {| slice := x :: A; pos := length (x :: A) |})).
  { apply (ToSlice_slice (x :: A) 1); simpl; lia. }
  unfold run_test, run_stage.
  repeat split.
  - change (Intersect (S (S fuel)) (NewSliceStream []) (NewSliceStream B) asc)
      with (Some ({| pipe := []; closed := true |}, NewSliceStream [], NewSliceStream B)).
    cbv iota beta. rewrite HB. reflexivity.
  - change (Diff (S (S fuel)) (NewSliceStream []) (NewSliceStream B) asc)
      with (Some ({| pipe := []; closed := true |}, NewSliceStream [], NewSliceStream B)).
    cbv iota beta. rewrite HB. reflexivity.
  - change (Intersect (S (S fuel)) (NewSliceStream (x :: A)) (NewSliceStream []) asc)
      with (Some ({| pipe := []; closed := true |},
                  {| slice := x :: A; pos := 1 |}, NewSliceStream [])).
    cbv iota beta. rewrite HA. reflexivity.
Qed.

Lemma empty_side_early_stop_witness :
  run_test OpIntersect 6 [] [7; 8] true = Some ([], [], [7; 8]) /\
  run_test OpDiff 6 [] [7; 8] true = Some ([], [], [7; 8]) /\
  run_test OpIntersect 6 [4; 5; 6] [] true = Some ([], [5; 6], []).
Proof.
  apply (empty_side_early_stop true 4 [5; 6] [7; 8] 6). simpl. lia.
Defined.

(** X14.  With one input empty, whatever the other sequence: [Union] returns
    the other input unchanged and [Diff] with an empty right input returns
    its left input unchanged. *)
Theorem empty_side_passes_through (asc : bool) (A B : list T) (fuel : nat) :
  (S (length A + 2 * length B) < fuel)%nat ->
  run OpUnion fuel [] B asc = Some B /\
  run OpUnion fuel A [] asc = Some A /\
  run OpDiff fuel A [] asc = Some A.
Proof.
  intros Hf.
  rewrite !run_Union, run_Diff_any by (simpl; lia).
  rewrite union_list_nil, merge_emit_nil_r.
  change (fun x : T => diff_emit (Some x) None) with (fun x : T => [x]).
  rewrite flat_map_singleton.
  destruct A; [rewrite union_list_nil|rewrite union_list_right_nil]; auto.
Qed.

Lemma empty_side_passes_through_witness :
  run OpUnion 10 [] [3; 1; 3] true = Some [3; 1; 3] /\
  run OpUnion 10 [2; 2] [] true = Some [2; 2] /\
  run OpDiff 10 [2; 2] [] true = Some [2; 2].
Proof.
  apply (empty_side_passes_through true [2; 2] [3; 1; 3] 10). simpl. lia.
Defined.

(** X15.  On inputs ordered in the declared direction, [Intersect] and [Diff]
    split [A]: every value of [A] is in exactly one of the two outputs, and
    their lengths add up to the length of [A]. *)
Theorem Intersect_Diff_partition (asc : bool) (A B : list T) (fuel : nat) :
  ordered asc A = true -> ordered asc B = true ->
  (length A + length B < fuel)%nat ->
  exists li ld,
    run OpIntersect fuel A B asc = Some li /\
    run OpDiff fuel A B asc = Some ld /\
    (length li + length ld = length A)%nat /\
    (forall x, In x A <-> In x li \/ In x ld) /\
    (forall x, ~ (In x li /\ In x ld)).
Proof.
  intros HA HB Hf. exists (eager_intersect A B), (eager_diff A B).
  split; [now apply run_Intersect|].
  split; [now apply run_Diff|].
  split; [apply filter_length|].
  split; intros x; rewrite eager_intersect_In, eager_diff_In.
  - destruct (mem x B) eqn:Hm.
    + apply mem_In in Hm. tauto.
    + assert (~ In x B) by (intros Hin; apply mem_In in Hin; congruence). tauto.
  - tauto.
Qed.

Lemma Intersect_Diff_partition_witness :
  exists li ld,
    run OpIntersect 7 [3; 2; 1] [2; 0] false = Some li /\
    run OpDiff 7 [3; 2; 1] [2; 0] false = Some ld /\
    Nat.add (length li) (length ld) = length [3; 2; 1] /\
    (forall x, In x [3; 2; 1] <-> In x li \/ In x ld) /\
    (forall x, ~ (In x li /\ In x ld)).
Proof.
  apply (Intersect_Diff_partition false [3; 2; 1] [2; 0] 7);
    [reflexivity | reflexivity | simpl; lia].
Defined.
